(** * Type erasure by range edits: the walker of [src/index.ts]

    [transformToJs] parses a TypeScript/TSX text, walks the syntax tree and
    queues [overwrite(start, end, replacement)] calls on a buffer holding the
    original text, then renders the buffer and hands the result to a
    formatter.  This file embeds the walker ([walk], lines 19-114) over a
    model of the parser's tree and of the buffer, and states the properties
    of the specification about them.

    The parser (typescript), the buffer (magic-string) and the formatter
    (prettier) are libraries outside the repository.  The tree is data the
    parser hands over: each node carries what the walker reads from it (kind,
    [pos], [end], the width of its leading trivia, the [isTypeOnly] flag and
    its children).  The buffer is modelled from section 4.2 of the
    specification.  The parser and the formatter are section variables of
    [transformToJs]. *)

From Stdlib Require Import List Arith Bool Ascii String Lia PeanoNat.
Import ListNotations.

Set Warnings "-register-all".

(** ** Source text *)

(** A text is the sequence of its code units, here those below 256;
    positions index into it. *)
Definition text := list ascii.

Definition txt (s : string) : text := list_ascii_of_string s.
Definition show (t : text) : string := string_of_list_ascii t.

(** [String.prototype.substring(a, b)]: the two arguments are swapped when
    [a > b], and both are clamped to the length. *)
Definition substring (a b : nat) (t : text) : text :=
  firstn (Nat.max a b - Nat.min a b) (skipn (Nat.min a b) t).

(** [Array.prototype.join(sep)]. *)
Fixpoint join (sep : text) (l : list text) : text :=
  match l with
  | [] => []
  | [x] => x
  | x :: rest => x ++ sep ++ join sep rest
  end.

(** ** Syntax tree *)

Inductive SyntaxKind : Type :=
  | SourceFile | EndOfFileToken | SyntaxList
  | ImportDeclaration | ImportClause | NamedImports | ImportSpecifier
  | ExportDeclaration | NamedExports | ExportSpecifier
  | AsExpression
  | TypeAliasDeclaration | InterfaceDeclaration | EnumDeclaration
  | ModuleDeclaration | ModuleBlock
  | VariableStatement | VariableDeclarationList | VariableDeclaration
  | FunctionDeclaration | FunctionExpression | ArrowFunction
  | MethodDeclaration | ClassDeclaration
  | Parameter_ | TypeParameter
  | ColonToken | LessThanToken | GreaterThanToken
  | EqualsToken | EqualsGreaterThanToken
  | OpenParenToken | CloseParenToken | OpenBraceToken | CloseBraceToken
  | OpenBracketToken | CloseBracketToken
  | CommaToken | SemicolonToken | SlashToken
  | ImportKeyword | ExportKeyword | FromKeyword | TypeKeyword | AsKeyword
  | FunctionKeyword | ClassKeyword | DeclareKeyword | NamespaceKeyword
  | ModuleKeyword | ReturnKeyword
  | NumberKeyword | StringKeyword | AnyKeyword | VoidKeyword | UnknownKeyword
  | Identifier | NumericLiteral | StringLiteral
  | TypeReference | TypeLiteral | PropertySignature | ComputedPropertyName
  | ParenthesizedExpression | CallExpression | ExpressionStatement
  | Block | ReturnStatement
  | JsxElement | JsxSelfClosingElement | JsxOpeningElement | JsxClosingElement
  | JsxAttributes | JsxAttribute | JsxNamespacedName | JsxExpression
  | OtherKind (tag : nat).

Definition SyntaxKind_eq_dec (a b : SyntaxKind) : {a = b} + {a <> b}.
Proof. decide equality. apply Nat.eq_dec. Defined.

Definition kind_eqb (a b : SyntaxKind) : bool :=
  if SyntaxKind_eq_dec a b then true else false.

(** The property under which a node stores a child. *)
Inductive PropertyName : Type :=
  | P_modifiers | P_name | P_importClause | P_namedBindings
  | P_moduleSpecifier | P_exportClause | P_elements | P_propertyName
  | P_expression | P_type | P_typeParameters | P_parameters
  | P_exclamationToken | P_questionToken | P_equalsGreaterThanToken
  | P_initializer | P_body | P_statements | P_declarationList
  | P_declarations | P_members | P_typeName | P_typeArguments
  | P_arguments | P_tagName | P_attributes | P_properties | P_namespace
  | P_openingElement | P_closingElement | P_children | P_endOfFileToken
  | P_other.

Definition PropertyName_eq_dec (a b : PropertyName) : {a = b} + {a <> b}.
Proof. decide equality. Defined.

Definition prop_eqb (a b : PropertyName) : bool :=
  if PropertyName_eq_dec a b then true else false.

(** What a node holds, in source order.  [ts.forEachChild] visits the nodes
    stored under a property ([Single]) and the elements of the node arrays
    ([Array]); [node.getChildren()] returns these too, the arrays wrapped
    in a [SyntaxList] node, together with the punctuation tokens it scans
    between them ([Token]). *)
Inductive Child (N : Type) : Type :=
  | Token (kind : SyntaxKind) (pos end_ : nat)
  | Single (name : PropertyName) (n : N)
  | Array (name : PropertyName) (pos end_ : nat) (elems : list N).

Arguments Token {N} kind pos end_.
Arguments Single {N} name n.
Arguments Array {N} name pos end_ elems.

(** A node: its kind, its range [[pos, end)] (which starts with the node's
    leading trivia), the width of that trivia, the [isTypeOnly] flag of
    import clauses and specifiers and of export declarations and specifiers
    (false where the parser leaves it undefined), and its children. *)
Inductive Node : Type :=
  mkNode (kind : SyntaxKind) (pos leadingTriviaWidth end_ : nat)
         (isTypeOnly : bool) (children : list (Child Node)).

Definition kind (n : Node) : SyntaxKind :=
  match n with mkNode k _ _ _ _ _ => k end.
Definition pos (n : Node) : nat :=
  match n with mkNode _ p _ _ _ _ => p end.
Definition leadingTriviaWidth (n : Node) : nat :=
  match n with mkNode _ _ w _ _ _ => w end.
Definition end_ (n : Node) : nat :=
  match n with mkNode _ _ _ e _ _ => e end.
Definition isTypeOnly (n : Node) : bool :=
  match n with mkNode _ _ _ _ b _ => b end.
Definition children (n : Node) : list (Child Node) :=
  match n with mkNode _ _ _ _ _ cs => cs end.

(** [node.getStart()]: the position after the leading trivia. *)
Definition getStart (n : Node) : nat := pos n + leadingTriviaWidth n.

(** [node.getText()]: the source text from [getStart()] to [end]. *)
Definition getText (src : text) (n : Node) : text :=
  substring (getStart n) (end_ n) src.

(** The nodes [ts.forEachChild(node, cb)] calls [cb] on, in order. *)
Definition childNodes (c : Child Node) : list Node :=
  match c with
  | Token _ _ _ => []
  | Single _ n => [n]
  | Array _ _ _ l => l
  end.

Definition forEachChild (n : Node) : list Node :=
  flat_map childNodes (children n).

(** [node.getChildren()]. *)
Definition getChildren (n : Node) : list Node :=
  map (fun c =>
         match c with
         | Token k p e => mkNode k p 0 e false []
         | Single _ m => m
         | Array name p e l =>
             mkNode SyntaxList p 0 e false [Array name p e l]
         end) (children n).

(** A property holding one node, [undefined] when absent. *)
Fixpoint lookupProp (name : PropertyName) (cs : list (Child Node))
  : option Node :=
  match cs with
  | [] => None
  | Single p n :: rest =>
      if prop_eqb p name then Some n else lookupProp name rest
  | _ :: rest => lookupProp name rest
  end.

(** A property holding a node array, [undefined] when absent. *)
Fixpoint lookupArray (name : PropertyName) (cs : list (Child Node))
  : option (list Node) :=
  match cs with
  | [] => None
  | Array p _ _ l :: rest =>
      if prop_eqb p name then Some l else lookupArray name rest
  | _ :: rest => lookupArray name rest
  end.

Definition importClause (n : Node) := lookupProp P_importClause (children n).
Definition expression (n : Node) := lookupProp P_expression (children n).
Definition type_ (n : Node) := lookupProp P_type (children n).
Definition elements (n : Node) := lookupArray P_elements (children n).
Definition typeParameters (n : Node) :=
  lookupArray P_typeParameters (children n).
Definition parameters (n : Node) := lookupArray P_parameters (children n).

Definition isKind (k : SyntaxKind) (n : Node) : bool := kind_eqb (kind n) k.

(** ** The buffer *)

(** Modelled from the spec: the Range-Splice Buffer of section 4.2
    (magic-string, a library outside the repository).  An edit is a range
    [[start, end)] of the original text and a replacement. *)
Record Edit : Type := mkEdit {
  e_start : nat;
  e_end : nat;
  e_content : text
}.

(** Modelled from the spec: the buffer holds the original text, never
    mutated, and the edits queued so far, oldest first. *)
Record MagicString : Type := mkMagicString {
  original : text;
  edits : list Edit
}.

Definition newMagicString (src : text) : MagicString :=
  mkMagicString src [].

(** Modelled from the spec: [overwrite(start, end, replacement)] queues the
    edit; nothing is applied before the render. *)
Definition overwrite (code : MagicString) (start stop : nat) (content : text)
  : MagicString :=
  mkMagicString (original code) (edits code ++ [mkEdit start stop content]).

Definition covers (e : Edit) (p : nat) : bool :=
  (e_start e <=? p) && (p <? e_end e).

(** The original character at [p] is replaced: some queued range holds it. *)
Definition replaced (es : list Edit) (p : nat) : bool :=
  existsb (fun e => covers e p) es.

(** The replacement texts that enter the output at position [p]. *)
Definition inserted (es : list Edit) (p : nat) : text :=
  flat_map (fun e => if e_start e =? p then e_content e else []) es.

(** Modelled from the spec: the render is the original text with the queued
    replacements applied in range order, byte-identical elsewhere.  [p] is
    the position of the first character of [rest] in the original. *)
Fixpoint render (es : list Edit) (p : nat) (rest : text) : text :=
  match rest with
  | [] => inserted es p
  | c :: rest' =>
      inserted es p ++ (if replaced es p then [] else [c])
      ++ render es (S p) rest'
  end.

Definition toString (code : MagicString) : text :=
  render (edits code) 0 (original code).

(** Two queued ranges overlap when they share a position. *)
Definition overlap (a b : Edit) : Prop :=
  Nat.max (e_start a) (e_start b) < Nat.min (e_end a) (e_end b).

(** ** Errors *)

(** The walker itself throws nowhere; reading a property of [undefined]
    raises a [TypeError]. *)
Inductive result (A : Type) : Type :=
  | Ok (a : A)
  | TypeError.

Arguments Ok {A} a.
Arguments TypeError {A}.

Definition bind {A B : Type} (r : result A) (f : A -> result B) : result B :=
  match r with
  | Ok a => f a
  | TypeError => TypeError
  end.

Notation "x <- r ;; k" := (bind r (fun x => k))
  (at level 61, r at next level, right associativity).

(** ** The walker *)

Definition findKind (k : SyntaxKind) (l : list Node) : option Node :=
  find (isKind k) l.

(** The colon-to-type deletion, written out three times in [walk] (lines
    66-73, 93-100 and 102-109):
    [if (n.type) { colonToken = n.getChildren().find(ColonToken);
     if (colonToken) code.overwrite(colonToken.pos, n.type.end, "") }]. *)
Definition eraseAnnotation (n : Node) (code : MagicString) : MagicString :=
  match type_ n with
  | Some ty =>
      match findKind ColonToken (getChildren n) with
      | Some colonToken => overwrite code (pos colonToken) (end_ ty) []
      | None => code
      end
  | None => code
  end.

(** Lines 81-92: the type-parameter list, from the first [<] child to the
    first [>] child. *)
Definition eraseTypeParameters (n : Node) (code : MagicString) : MagicString :=
  match typeParameters n with
  | Some (_ :: _) =>
      match findKind LessThanToken (getChildren n),
            findKind GreaterThanToken (getChildren n) with
      | Some ltToken, Some gtToken =>
          overwrite code (pos ltToken) (end_ gtToken) []
      | _, _ => code
      end
  | _ => code
  end.

Definition isFunctionLike (n : Node) : bool :=
  isKind FunctionDeclaration n || isKind FunctionExpression n
  || isKind ArrowFunction n.

(** Lines 76-111. *)
Definition eraseFunctionLike (n : Node) (code : MagicString)
  : result MagicString :=
  let code := eraseTypeParameters n code in
  let code := eraseAnnotation n code in
  match parameters n with
  | Some ps => Ok (fold_left (fun c p => eraseAnnotation p c) ps code)
  | None => TypeError
  end.

(** Lines 20 and 35: the two guarded whole-declaration rules. *)
Definition isTypeOnlyImport (n : Node) : bool :=
  isKind ImportDeclaration n
  && match importClause n with Some c => isTypeOnly c | None => false end.

Definition isTypeOnlyExport (n : Node) : bool :=
  isKind ExportDeclaration n && isTypeOnly n.

(** Lines 55-60. *)
Definition isTypeDeclaration (n : Node) : bool :=
  isKind TypeAliasDeclaration n || isKind InterfaceDeclaration n
  || isKind EnumDeclaration n || isKind ModuleDeclaration n.

(** The text a specifier list is replaced with (lines 26-30 and 41-45). *)
Definition keptSpecifiers (src sep : text) (es : list Node) : text :=
  txt "{" ++ join sep (map (getText src)
                         (filter (fun e => negb (isTypeOnly e)) es))
  ++ txt "}".

(** [walk] (lines 19-114).  [src] is the text the tree was parsed from, which
    [getText] reads; the buffer [code] is threaded through. *)
Fixpoint walk (src : text) (node : Node) (code : MagicString) {struct node}
  : result MagicString :=
  if isTypeOnlyImport node then
    Ok (overwrite code (pos node) (end_ node) [])
  else if isKind NamedImports node then
    match elements node with
    | Some es =>
        Ok (overwrite code (pos node) (end_ node)
              (keptSpecifiers src (txt ",") es))
    | None => TypeError
    end
  else if isTypeOnlyExport node then
    Ok (overwrite code (pos node) (end_ node) [])
  else if isKind NamedExports node then
    match elements node with
    | Some es =>
        Ok (overwrite code (pos node) (end_ node)
              (keptSpecifiers src (txt ", ") es))
    | None => TypeError
    end
  else if isKind AsExpression node then
    match expression node with
    | Some e => Ok (overwrite code (pos node) (end_ node) (getText src e))
    | None => TypeError
    end
  else if isTypeDeclaration node then
    Ok (overwrite code (pos node) (end_ node) [])
  else
    let code :=
      if isKind VariableDeclaration node then eraseAnnotation node code
      else code in
    code <- (if isFunctionLike node then eraseFunctionLike node code
             else Ok code) ;;
    (fix each (cs : list (Child Node)) (code : MagicString)
       : result MagicString :=
       match cs with
       | [] => Ok code
       | Token _ _ _ :: rest => each rest code
       | Single _ n :: rest => code <- walk src n code ;; each rest code
       | Array _ _ _ l :: rest =>
           code <- (fix elems (l : list Node) (code : MagicString)
                      : result MagicString :=
                      match l with
                      | [] => Ok code
                      | n :: l' => code <- walk src n code ;; elems l' code
                      end) l code ;;
           each rest code
       end) (children node) code.

(** How the promise of [transformToJs] settles: resolved with the formatted
    text, or rejected with what the walker or the formatter threw. *)
Inductive Thrown : Type :=
  | WalkerTypeError
  | FormatterError.

Inductive Completion : Type :=
  | Resolved (output : text)
  | Rejected (e : Thrown).

(** [transformToJs] (lines 8-119), over the parser and the formatter.
    [format] is [prettier.format] with the babel parser: it returns the
    formatted text, or throws on a text it cannot parse ([None]). *)
Section Transform.

Variable createSourceFile : text -> Node.
Variable format : text -> option text.

Definition formatted (t : text) : Completion :=
  match format t with
  | Some output => Resolved output
  | None => Rejected FormatterError
  end.

Definition transformToJs (tsCode : text) : Completion :=
  let ast := createSourceFile tsCode in
  let code := newMagicString tsCode in
  match walk tsCode ast code with
  | Ok code => formatted (toString code)
  | TypeError => Rejected WalkerTypeError
  end.

End Transform.

(** [normalize] (lines 121-123): every run of white space becomes one space,
    and the ends are trimmed.  The white space of [\s] below 256. *)
Definition isWhiteSpace (c : ascii) : bool :=
  let n := nat_of_ascii c in
  ((9 <=? n) && (n <=? 13)) || (n =? 32) || (n =? 160).

Fixpoint collapse (inRun : bool) (t : text) : text :=
  match t with
  | [] => []
  | c :: rest =>
      if isWhiteSpace c
      then (if inRun then collapse true rest
            else " "%char :: collapse true rest)
      else c :: collapse false rest
  end.

Fixpoint trimStart (t : text) : text :=
  match t with
  | c :: rest => if isWhiteSpace c then trimStart rest else t
  | [] => []
  end.

Definition trim (t : text) : text := rev (trimStart (rev (trimStart t))).

Definition normalize (str : text) : text := trim (collapse false str).

(** ** What the walker does at one node, and where it goes *)

(** A rule of lines 20-63 matches: the walker queues one edit for the whole
    range of the node and returns. *)
Definition consumed (n : Node) : bool :=
  isTypeOnlyImport n || isKind NamedImports n || isTypeOnlyExport n
  || isKind NamedExports n || isKind AsExpression n || isTypeDeclaration n.

(** The whole-declaration deletions among them (lines 20-23, 35-38, 55-63). *)
Definition deletesWhole (n : Node) : bool :=
  isTypeOnlyImport n || isTypeOnlyExport n || isTypeDeclaration n.

(** The body of [walk] up to the descent of line 113. *)
Definition visit (src : text) (node : Node) (code : MagicString)
  : result MagicString :=
  if isTypeOnlyImport node then
    Ok (overwrite code (pos node) (end_ node) [])
  else if isKind NamedImports node then
    match elements node with
    | Some es =>
        Ok (overwrite code (pos node) (end_ node)
              (keptSpecifiers src (txt ",") es))
    | None => TypeError
    end
  else if isTypeOnlyExport node then
    Ok (overwrite code (pos node) (end_ node) [])
  else if isKind NamedExports node then
    match elements node with
    | Some es =>
        Ok (overwrite code (pos node) (end_ node)
              (keptSpecifiers src (txt ", ") es))
    | None => TypeError
    end
  else if isKind AsExpression node then
    match expression node with
    | Some e => Ok (overwrite code (pos node) (end_ node) (getText src e))
    | None => TypeError
    end
  else if isTypeDeclaration node then
    Ok (overwrite code (pos node) (end_ node) [])
  else
    let code :=
      if isKind VariableDeclaration node then eraseAnnotation node code
      else code in
    if isFunctionLike node then eraseFunctionLike node code else Ok code.

(** [walk] over a list of nodes, as [forEachChild] runs it. *)
Fixpoint walkEach (src : text) (l : list Node) (code : MagicString)
  : result MagicString :=
  match l with
  | [] => Ok code
  | n :: l' => code <- walk src n code ;; walkEach src l' code
  end.

(** The nodes [walk] is called on, in call order. *)
Fixpoint visited (node : Node) : list Node :=
  node ::
  (if consumed node then []
   else
     (fix each (cs : list (Child Node)) : list Node :=
        match cs with
        | [] => []
        | Token _ _ _ :: rest => each rest
        | Single _ n :: rest => visited n ++ each rest
        | Array _ _ _ l :: rest =>
            (fix elems (l : list Node) : list Node :=
               match l with
               | [] => []
               | n :: l' => visited n ++ elems l'
               end) l ++ each rest
        end) (children node)).

(** Every node of the tree, parents first. *)
Fixpoint allNodes (node : Node) : list Node :=
  node ::
  (fix each (cs : list (Child Node)) : list Node :=
     match cs with
     | [] => []
     | Token _ _ _ :: rest => each rest
     | Single _ n :: rest => allNodes n ++ each rest
     | Array _ _ _ l :: rest =>
         (fix elems (l : list Node) : list Node :=
            match l with
            | [] => []
            | n :: l' => allNodes n ++ elems l'
            end) l ++ each rest
     end) (children node).

(** The edits [walk] queues at a node itself. *)
Definition queued (src : text) (n : Node) : list Edit :=
  match visit src n (newMagicString []) with
  | Ok code => edits code
  | TypeError => []
  end.

Definition isSome {A : Type} (o : option A) : bool :=
  match o with Some _ => true | None => false end.

(** The node has the properties its kind promises, so that reading them
    does not throw: [elements] on a specifier list, [expression] on a type
    assertion, [parameters] on a function. *)
Definition wellTyped (n : Node) : bool :=
  (if isKind NamedImports n || isKind NamedExports n
   then isSome (elements n) else true)
  && (if isKind AsExpression n then isSome (expression n) else true)
  && (if isFunctionLike n then isSome (parameters n) else true).

Definition hasTypeParameters (n : Node) : bool :=
  match typeParameters n with
  | Some (_ :: _) => true
  | _ => false
  end.

(** The node matches a rule of the classifier: it is consumed, or it is a
    variable declarator with a declared type, or a function with type
    parameters, a return type or a parameter type. *)
Definition recognized (n : Node) : bool :=
  consumed n
  || isKind VariableDeclaration n && isSome (type_ n)
  || isFunctionLike n
     && (hasTypeParameters n || isSome (type_ n)
         || match parameters n with
            | Some ps => existsb (fun p => isSome (type_ p)) ps
            | None => false
            end).

(** Type-only syntax: a type-space declaration, a type-only import or
    export or specifier, a type assertion, or a declared type or type
    parameters on a declarator, function, method or parameter. *)
Definition typeOnlySyntax (n : Node) : bool :=
  isTypeDeclaration n || isTypeOnly n || isTypeOnlyImport n
  || isKind AsExpression n || isSome (type_ n) || hasTypeParameters n.

(** The range [[a, b)] of the original lies outside the edit: the edit ends
    at or before [a], or starts at or after [b]. *)
Definition outside (e : Edit) (a b : nat) : Prop :=
  (e_start e <= a /\ e_end e <= a) \/ b <= e_start e.

(** The edit comes from the colon-to-type deletion at [m]: its range runs
    from a [ColonToken] child of [m] to the end of [m]'s declared type. *)
Definition annotationOf (m : Node) (e : Edit) : Prop :=
  exists ty colonToken,
    type_ m = Some ty
    /\ In colonToken (getChildren m)
    /\ kind colonToken = ColonToken
    /\ e = mkEdit (pos colonToken) (end_ ty) [].

(** The edit comes from a rule applied at [n]. *)
Definition ruleEdit (n : Node) (e : Edit) : Prop :=
  (consumed n = true /\ e_start e = pos n /\ e_end e = end_ n)
  \/ (isKind VariableDeclaration n = true /\ annotationOf n e)
  \/ (isFunctionLike n = true
      /\ (annotationOf n e
          \/ (exists ps p, parameters n = Some ps /\ In p ps
                           /\ annotationOf p e)
          \/ (exists ltToken gtToken,
                hasTypeParameters n = true
                /\ In ltToken (getChildren n) /\ kind ltToken = LessThanToken
                /\ In gtToken (getChildren n)
                /\ kind gtToken = GreaterThanToken
                /\ e = mkEdit (pos ltToken) (end_ gtToken) []))).

(** ** Parsed inputs

    The trees below are what the parser returns for the quoted texts:
    [pos] is the end of the previous token, so a range starts with the
    node's leading trivia, whose width is the third argument.  Punctuation
    tokens are listed on the nodes [walk] calls [getChildren()] on. *)

Definition node (k : SyntaxKind) (p w e : nat) (cs : list (Child Node))
  : Node :=
  mkNode k p w e false cs.

Definition leaf (k : SyntaxKind) (p w e : nat) : Node :=
  mkNode k p w e false [].

Definition typeOnly (k : SyntaxKind) (p w e : nat) (cs : list (Child Node))
  : Node :=
  mkNode k p w e true cs.

(** A source file of length [len] whose last statement ends at [last]. *)
Definition sourceFile (len last : nat) (statements : list Node) : Node :=
  node SourceFile 0 0 len
    [Array P_statements 0 last statements;
     Single P_endOfFileToken (leaf EndOfFileToken last (len - last) len)].

(** A type reference that is one identifier. *)
Definition typeRef (p w e : nat) : Node :=
  node TypeReference p w e [Single P_typeName (leaf Identifier p w e)].

Definition dq : string := String (ascii_of_nat 34) EmptyString.

(** [const a: number = 123;] *)
Definition src_const_a : text := txt "const a: number = 123;".

Definition decl_const_a : Node :=
  node VariableDeclaration 5 1 21
    [Single P_name (leaf Identifier 5 1 7);
     Token ColonToken 7 8;
     Single P_type (leaf NumberKeyword 8 1 15);
     Token EqualsToken 15 17;
     Single P_initializer (leaf NumericLiteral 17 1 21)].

Definition ast_const_a : Node :=
  sourceFile 22 22
    [node VariableStatement 0 0 22
       [Single P_declarationList
          (node VariableDeclarationList 0 0 21
             [Array P_declarations 5 21 [decl_const_a]])]].

(** [const b = "123" as number;] *)
Definition src_as_number : text :=
  txt ("const b = " ++ dq ++ "123" ++ dq ++ " as number;").

Definition as_number : Node :=
  node AsExpression 9 1 25
    [Single P_expression (leaf StringLiteral 9 1 15);
     Single P_type (leaf NumberKeyword 18 1 25)].

Definition ast_as_number : Node :=
  sourceFile 26 26
    [node VariableStatement 0 0 26
       [Single P_declarationList
          (node VariableDeclarationList 0 0 25
             [Array P_declarations 5 25
                [node VariableDeclaration 5 1 25
                   [Single P_name (leaf Identifier 5 1 7);
                    Token EqualsToken 7 9;
                    Single P_initializer as_number]]])]].

(** [x as unknown as T;] *)
Definition src_double_cast : text := txt "x as unknown as T;".

Definition inner_cast : Node :=
  node AsExpression 0 0 12
    [Single P_expression (leaf Identifier 0 0 1);
     Single P_type (leaf UnknownKeyword 4 1 12)].

Definition outer_cast : Node :=
  node AsExpression 0 0 17
    [Single P_expression inner_cast;
     Single P_type (typeRef 15 1 17)].

Definition ast_double_cast : Node :=
  sourceFile 18 18
    [node ExpressionStatement 0 0 18 [Single P_expression outer_cast]].

(** [(() => { type T = U; }) as V;] *)
Definition src_alias_in_cast : text := txt "(() => { type T = U; }) as V;".

Definition alias_in_cast : Node :=
  node TypeAliasDeclaration 8 1 20
    [Single P_name (leaf Identifier 13 1 15);
     Single P_type (typeRef 17 1 19)].

Definition ast_alias_in_cast : Node :=
  sourceFile 29 29
    [node ExpressionStatement 0 0 29
       [Single P_expression
          (node AsExpression 0 0 28
             [Single P_expression
                (node ParenthesizedExpression 0 0 23
                   [Single P_expression
                      (node ArrowFunction 1 0 22
                         [Token OpenParenToken 1 2;
                          Array P_parameters 2 2 [];
                          Token CloseParenToken 2 3;
                          Single P_equalsGreaterThanToken
                            (leaf EqualsGreaterThanToken 3 1 6);
                          Single P_body
                            (node Block 6 1 22
                               [Array P_statements 8 20 [alias_in_cast]])])]);
              Single P_type (typeRef 26 1 28)])]].

(** [(() => { let a: T = 1; }) as V;] *)
Definition src_decl_in_cast : text := txt "(() => { let a: T = 1; }) as V;".

Definition decl_in_cast : Node :=
  node VariableDeclaration 12 1 21
    [Single P_name (leaf Identifier 12 1 14);
     Token ColonToken 14 15;
     Single P_type (typeRef 15 1 17);
     Token EqualsToken 17 19;
     Single P_initializer (leaf NumericLiteral 19 1 21)].

Definition ast_decl_in_cast : Node :=
  sourceFile 31 31
    [node ExpressionStatement 0 0 31
       [Single P_expression
          (node AsExpression 0 0 30
             [Single P_expression
                (node ParenthesizedExpression 0 0 25
                   [Single P_expression
                      (node ArrowFunction 1 0 24
                         [Token OpenParenToken 1 2;
                          Array P_parameters 2 2 [];
                          Token CloseParenToken 2 3;
                          Single P_equalsGreaterThanToken
                            (leaf EqualsGreaterThanToken 3 1 6);
                          Single P_body
                            (node Block 6 1 24
                               [Array P_statements 8 22
                                  [node VariableStatement 8 1 22
                                     [Single P_declarationList
                                        (node VariableDeclarationList 8 1 21
                                           [Array P_declarations 12 21
                                              [decl_in_cast]])]]])])]);
              Single P_type (typeRef 28 1 30)])]].

(** [let x: { [1 as any]: string };] *)
Definition src_cast_in_type : text := txt "let x: { [1 as any]: string };".

Definition cast_in_type : Node :=
  node AsExpression 10 0 18
    [Single P_expression (leaf NumericLiteral 10 0 11);
     Single P_type (leaf AnyKeyword 14 1 18)].

Definition decl_cast_in_type : Node :=
  node VariableDeclaration 3 1 29
    [Single P_name (leaf Identifier 3 1 5);
     Token ColonToken 5 6;
     Single P_type
       (node TypeLiteral 6 1 29
          [Array P_members 8 27
             [node PropertySignature 8 1 27
                [Single P_name
                   (node ComputedPropertyName 8 1 19
                      [Single P_expression cast_in_type]);
                 Single P_type (leaf StringKeyword 20 1 27)]]])].

Definition ast_cast_in_type : Node :=
  sourceFile 30 30
    [node VariableStatement 0 0 30
       [Single P_declarationList
          (node VariableDeclarationList 0 0 29
             [Array P_declarations 3 29 [decl_cast_in_type]])]].

(** [declare module 'm' { import { A } from 'x'; }] *)
Definition src_import_in_module : text :=
  txt "declare module 'm' { import { A } from 'x'; }".

Definition imports_in_module : Node :=
  node NamedImports 27 1 33
    [Array P_elements 29 31
       [node ImportSpecifier 29 1 31
          [Single P_name (leaf Identifier 29 1 31)]]].

Definition ast_import_in_module : Node :=
  sourceFile 45 45
    [node ModuleDeclaration 0 0 45
       [Array P_modifiers 0 7 [leaf DeclareKeyword 0 0 7];
        Single P_name (leaf StringLiteral 14 1 18);
        Single P_body
          (node ModuleBlock 18 1 45
             [Array P_statements 20 43
                [node ImportDeclaration 20 1 43
                   [Single P_importClause
                      (node ImportClause 27 1 33
                         [Single P_namedBindings imports_in_module]);
                    Single P_moduleSpecifier (leaf StringLiteral 38 1 42)]]])]].

(** [import { type Foo, Bar } from './foo';] *)
Definition src_import_mixed : text :=
  txt "import { type Foo, Bar } from './foo';".

Definition imports_mixed : Node :=
  node NamedImports 6 1 24
    [Array P_elements 8 22
       [typeOnly ImportSpecifier 8 1 17
          [Single P_name (leaf Identifier 13 1 17)];
        node ImportSpecifier 18 1 22
          [Single P_name (leaf Identifier 18 1 22)]]].

Definition ast_import_mixed : Node :=
  sourceFile 38 38
    [node ImportDeclaration 0 0 38
       [Single P_importClause
          (node ImportClause 6 1 24 [Single P_namedBindings imports_mixed]);
        Single P_moduleSpecifier (leaf StringLiteral 29 1 37)]].

(** [import { type Foo } from './foo';] *)
Definition src_import_types : text := txt "import { type Foo } from './foo';".

Definition imports_types : Node :=
  node NamedImports 6 1 19
    [Array P_elements 8 17
       [typeOnly ImportSpecifier 8 1 17
          [Single P_name (leaf Identifier 13 1 17)]]].

Definition ast_import_types : Node :=
  sourceFile 33 33
    [node ImportDeclaration 0 0 33
       [Single P_importClause
          (node ImportClause 6 1 19 [Single P_namedBindings imports_types]);
        Single P_moduleSpecifier (leaf StringLiteral 24 1 32)]].

(** [import { a /* c */ } from 'm';] *)
Definition src_import_comment : text := txt "import { a /* c */ } from 'm';".

Definition ast_import_comment : Node :=
  sourceFile 30 30
    [node ImportDeclaration 0 0 30
       [Single P_importClause
          (node ImportClause 6 1 20
             [Single P_namedBindings
                (node NamedImports 6 1 20
                   [Array P_elements 8 10
                      [node ImportSpecifier 8 1 10
                         [Single P_name (leaf Identifier 8 1 10)]]])]);
        Single P_moduleSpecifier (leaf StringLiteral 25 1 29)]].

(** [export { type Foo, Bar } from './foo';] *)
Definition src_export_mixed : text :=
  txt "export { type Foo, Bar } from './foo';".

Definition exports_mixed : Node :=
  node NamedExports 6 1 24
    [Array P_elements 8 22
       [typeOnly ExportSpecifier 8 1 17
          [Single P_name (leaf Identifier 13 1 17)];
        node ExportSpecifier 18 1 22
          [Single P_name (leaf Identifier 18 1 22)]]].

Definition ast_export_mixed : Node :=
  sourceFile 38 38
    [node ExportDeclaration 0 0 38
       [Single P_exportClause exports_mixed;
        Single P_moduleSpecifier (leaf StringLiteral 29 1 37)]].

(** [export { A, type B, C };] *)
Definition src_export_three : text := txt "export { A, type B, C };".

Definition exports_three : Node :=
  node NamedExports 6 1 23
    [Array P_elements 8 21
       [node ExportSpecifier 8 1 10 [Single P_name (leaf Identifier 8 1 10)];
        typeOnly ExportSpecifier 11 1 18
          [Single P_name (leaf Identifier 16 1 18)];
        node ExportSpecifier 19 1 21 [Single P_name (leaf Identifier 19 1 21)]]].

Definition ast_export_three : Node :=
  sourceFile 24 24
    [node ExportDeclaration 0 0 24 [Single P_exportClause exports_three]].

(** [class A { m(x: number): void {} }] *)
Definition src_method : text := txt "class A { m(x: number): void {} }".

Definition method_m : Node :=
  node MethodDeclaration 9 1 31
    [Single P_name (leaf Identifier 9 1 11);
     Token OpenParenToken 11 12;
     Array P_parameters 12 21
       [node Parameter_ 12 0 21
          [Single P_name (leaf Identifier 12 0 13);
           Token ColonToken 13 14;
           Single P_type (leaf NumberKeyword 14 1 21)]];
     Token CloseParenToken 21 22;
     Token ColonToken 22 23;
     Single P_type (leaf VoidKeyword 23 1 28);
     Single P_body (node Block 28 1 31 [Array P_statements 30 30 []])].

Definition ast_method : Node :=
  sourceFile 33 33
    [node ClassDeclaration 0 0 33
       [Single P_name (leaf Identifier 5 1 7);
        Array P_members 9 31 [method_m]]].

(** [function foo<T>(a: number): string { return String(a); }] *)
Definition src_function_foo : text :=
  txt "function foo<T>(a: number): string { return String(a); }".

Definition param_a : Node :=
  node Parameter_ 16 0 25
    [Single P_name (leaf Identifier 16 0 17);
     Token ColonToken 17 18;
     Single P_type (leaf NumberKeyword 18 1 25)].

Definition function_foo : Node :=
  node FunctionDeclaration 0 0 56
    [Token FunctionKeyword 0 8;
     Single P_name (leaf Identifier 8 1 12);
     Token LessThanToken 12 13;
     Array P_typeParameters 13 14
       [node TypeParameter 13 0 14 [Single P_name (leaf Identifier 13 0 14)]];
     Token GreaterThanToken 14 15;
     Token OpenParenToken 15 16;
     Array P_parameters 16 25 [param_a];
     Token CloseParenToken 25 26;
     Token ColonToken 26 27;
     Single P_type (leaf StringKeyword 27 1 34);
     Single P_body
       (node Block 34 1 56
          [Array P_statements 36 54
             [node ReturnStatement 36 1 54
                [Single P_expression
                   (node CallExpression 43 1 53
                      [Single P_expression (leaf Identifier 43 1 50);
                       Array P_arguments 51 52 [leaf Identifier 51 0 52]])]]])].

Definition ast_function_foo : Node := sourceFile 56 56 [function_foo].

(** [<div on:click={() => {}}></div>] *)
Definition src_jsx : text := txt "<div on:click={() => {}}></div>".

Definition attr_on_click : Node :=
  node JsxNamespacedName 4 1 13
    [Single P_namespace (leaf Identifier 4 1 7);
     Single P_name (leaf Identifier 8 0 13)].

Definition attribute_on_click : Node :=
  node JsxAttribute 4 1 24
    [Single P_name attr_on_click;
     Single P_initializer
       (node JsxExpression 14 0 24
          [Single P_expression
             (node ArrowFunction 15 0 23
                [Token OpenParenToken 15 16;
                 Array P_parameters 16 16 [];
                 Token CloseParenToken 16 17;
                 Single P_equalsGreaterThanToken
                   (leaf EqualsGreaterThanToken 17 1 20);
                 Single P_body
                   (node Block 20 1 23 [Array P_statements 22 22 []])])])].

Definition ast_jsx : Node :=
  sourceFile 31 31
    [node ExpressionStatement 0 0 31
       [Single P_expression
          (node JsxElement 0 0 31
             [Single P_openingElement
                (node JsxOpeningElement 0 0 25
                   [Single P_tagName (leaf Identifier 1 0 4);
                    Single P_attributes
                      (node JsxAttributes 4 1 24
                         [Array P_properties 4 24 [attribute_on_click]])]);
              Array P_children 25 25 [];
              Single P_closingElement
                (node JsxClosingElement 25 0 31
                   [Single P_tagName (leaf Identifier 27 0 30)])])]].

(** [namespace N { <a b:c={1} />; }] *)
Definition src_jsx_in_namespace : text := txt "namespace N { <a b:c={1} />; }".

Definition attr_b_c : Node :=
  node JsxNamespacedName 16 1 20
    [Single P_namespace (leaf Identifier 16 1 18);
     Single P_name (leaf Identifier 19 0 20)].

Definition attribute_b_c : Node :=
  node JsxAttribute 16 1 24
    [Single P_name attr_b_c;
     Single P_initializer
       (node JsxExpression 21 0 24
          [Single P_expression (leaf NumericLiteral 22 0 23)])].

Definition ast_jsx_in_namespace : Node :=
  sourceFile 30 30
    [node ModuleDeclaration 0 0 30
       [Single P_name (leaf Identifier 9 1 11);
        Single P_body
          (node ModuleBlock 11 1 30
             [Array P_statements 13 28
                [node ExpressionStatement 13 1 28
                   [Single P_expression
                      (node JsxSelfClosingElement 13 1 27
                         [Single P_tagName (leaf Identifier 15 0 16);
                          Single P_attributes
                            (node JsxAttributes 16 1 24
                               [Array P_properties 16 24
                                  [attribute_b_c]])])]]])]].

(** [/* t */ type A = B; f;] *)
Definition src_commented_alias : text := txt "/* t */ type A = B; f;".

Definition commented_alias : Node :=
  node TypeAliasDeclaration 0 8 19
    [Single P_name (leaf Identifier 12 1 14);
     Single P_type (typeRef 16 1 18)].

Definition ast_commented_alias : Node :=
  sourceFile 22 22
    [commented_alias;
     node ExpressionStatement 19 1 22
       [Single P_expression (leaf Identifier 19 1 21)]].

(** [return x as T;] *)
Definition src_return_cast : text := txt "return x as T;".

Definition return_cast : Node :=
  node AsExpression 6 1 13
    [Single P_expression (leaf Identifier 6 1 8);
     Single P_type (typeRef 11 1 13)].

Definition ast_return_cast : Node :=
  sourceFile 14 14
    [node ReturnStatement 0 0 14 [Single P_expression return_cast]].

(** [import { Bar } from './bar';] *)
Definition src_import_bar : text := txt "import { Bar } from './bar';".

Definition imports_bar : Node :=
  node NamedImports 6 1 14
    [Array P_elements 8 12
       [node ImportSpecifier 8 1 12
          [Single P_name (leaf Identifier 8 1 12)]]].

Definition ast_import_bar : Node :=
  sourceFile 28 28
    [node ImportDeclaration 0 0 28
       [Single P_importClause
          (node ImportClause 6 1 14 [Single P_namedBindings imports_bar]);
        Single P_moduleSpecifier (leaf StringLiteral 19 1 27)]].

(** The rendered text of a walk from an empty queue. *)
Definition rendered (src : text) (ast : Node) : result string :=
  code <- walk src ast (newMagicString src) ;; Ok (show (toString code)).

(** ** Words and normal forms

    What [normalize] computes, in terms of the words of a text. *)

Definition space : text := txt " ".

(** The words of a text: its maximal runs of characters that are not white
    space, in order. *)
Fixpoint words (t : text) : list text :=
  match t with
  | [] => []
  | c :: r =>
      if isWhiteSpace c then words r
      else
        match r with
        | [] => [[c]]
        | d :: _ =>
            if isWhiteSpace d then [c] :: words r
            else
              match words r with
              | w :: ws => (c :: w) :: ws
              | [] => [[c]]
              end
        end
  end.

(** A word: not empty, and without white space. *)
Definition isWord (w : text) : bool :=
  match w with
  | [] => false
  | _ => forallb (fun c => negb (isWhiteSpace c)) w
  end.

(** A character that is not white space. *)
Definition otherThanSpace (c : ascii) : bool := negb (isWhiteSpace c).

(** A blank text holds white space only. *)
Definition blank (t : text) : bool := forallb isWhiteSpace t.

(** [trim] is [trimEnd] after [trimStart]. *)
Definition trimEnd (t : text) : text := rev (trimStart (rev t)).

(** A text in normal form: every white-space character is one space, and it
    stands between two characters that are not white space.  [afterSpace]
    holds at the start and after a space. *)
Fixpoint normalFrom (afterSpace : bool) (t : text) : bool :=
  match t with
  | [] => negb afterSpace
  | c :: r =>
      if isWhiteSpace c
      then negb afterSpace && Ascii.eqb c " "%char && normalFrom true r
      else normalFrom false r
  end.

Definition normal (t : text) : bool :=
  match t with
  | [] => true
  | _ => normalFrom true t
  end.

(** ** Deletions only *)

(** [s] is [t] with some characters left out. *)
Inductive Subsequence : text -> text -> Prop :=
  | Subsequence_nil : Subsequence [] []
  | Subsequence_keep (c : ascii) (s t : text) :
      Subsequence s t -> Subsequence (c :: s) (c :: t)
  | Subsequence_drop (c : ascii) (s t : text) :
      Subsequence s t -> Subsequence s (c :: t).

(** The rules whose replacement is not empty: the specifier lists (lines 25
    and 40) and the type assertion (line 50). *)
Definition insertsText (n : Node) : bool :=
  isKind NamedImports n || isKind NamedExports n || isKind AsExpression n.

(** ** Texts up to white space *)

(** The characters of a text other than white space, in order. *)
Definition ink (t : text) : text := filter otherThanSpace t.

Definition text_eqb (a b : text) : bool :=
  if list_eq_dec ascii_dec a b then true else false.

(** Two edits lie apart: one ends where or before the other starts. *)
Definition apart (a b : Edit) : Prop :=
  e_end a <= e_start b \/ e_end b <= e_start a.

(** The edit lies in the text and changes white space only: its replacement
    and the range it replaces hold the same other characters. *)
Definition sameInk (src : text) (e : Edit) : Prop :=
  e_start e <= e_end e <= List.length src
  /\ ink (e_content e) = ink (substring (e_start e) (e_end e) src).

(** A specifier list the walker re-serialises without loss: no specifier is
    type-only, and the text of its range is, white space aside, the brace,
    the specifiers' texts with a comma between them, and the brace: no
    comment and no trailing comma. *)
Definition plainList (src : text) (n : Node) : bool :=
  (isKind NamedImports n || isKind NamedExports n)
  && match elements n with
     | Some es =>
         forallb (fun e => negb (isTypeOnly e)) es
         && (pos n <=? end_ n) && (end_ n <=? List.length src)
         && text_eqb (ink (substring (pos n) (end_ n) src))
              (ink (txt "{" ++ join (txt ",") (map (getText src) es)
                    ++ txt "}"))
     | None => false
     end.

(** The ranges of two nodes lie apart. *)
Definition rangesApart (a b : Node) : Prop :=
  end_ a <= pos b \/ end_ b <= pos a.

(** ** Basic facts *)

Lemma kind_eqb_eq (a b : SyntaxKind) : kind_eqb a b = true <-> a = b.
Proof.
  unfold kind_eqb. destruct (SyntaxKind_eq_dec a b); split; congruence.
Qed.


Section NodeInduction.

Variable P : Node -> Prop.
Hypothesis step : forall n, Forall P (forEachChild n) -> P n.

Lemma Node_children_ind : forall n, P n.
Proof.
  fix IH 1. intros [k p w e b cs]. apply step.
  unfold forEachChild; simpl.
  induction cs as [|c cs IHcs]; simpl; [constructor|].
  destruct c as [k' p' e'| name m | name p' e' l]; simpl.
  - exact IHcs.
  - constructor; [apply IH | exact IHcs].
  - apply Forall_app; split; [| exact IHcs].
    clear IHcs. induction l as [|m l IHl]; constructor; [apply IH | exact IHl].
Qed.

End NodeInduction.

Lemma walkEach_app src l1 l2 code :
  walkEach src (l1 ++ l2) code
  = (code <- walkEach src l1 code ;; walkEach src l2 code).
Proof.
  revert code. induction l1 as [|n l1 IH]; intros code; simpl; [reflexivity|].
  destruct (walk src n code); simpl; [apply IH | reflexivity].
Qed.

Lemma walk_eq src node code :
  walk src node code
  = (code <- visit src node code ;;
     if consumed node then Ok code
     else walkEach src (forEachChild node) code).
Proof.
  destruct node as [k p w e b cs].
  unfold consumed, visit. simpl walk.
  set (n := mkNode k p w e b cs).
  destruct (isTypeOnlyImport n); [reflexivity|].
  destruct (isKind NamedImports n);
    [destruct (elements n); reflexivity|].
  destruct (isTypeOnlyExport n); [reflexivity|].
  destruct (isKind NamedExports n);
    [destruct (elements n); reflexivity|].
  destruct (isKind AsExpression n);
    [destruct (expression n); reflexivity|].
  destruct (isTypeDeclaration n); [reflexivity|].
  simpl orb. cbv iota.
  match goal with
  | |- bind ?r _ = bind ?r' _ => change r' with r; destruct r; simpl;
                                 [|reflexivity]
  end.
  unfold forEachChild, n; simpl children. clear.
  revert a. induction cs as [|c cs IHcs]; intros code; simpl; [reflexivity|].
  destruct c as [k' p' e'| name m | name p' e' l]; simpl.
  - apply IHcs.
  - destruct (walk src m code); simpl; [apply IHcs | reflexivity].
  - rewrite walkEach_app.
    assert (E : forall code,
      (fix elems (l : list Node) (code : MagicString) : result MagicString :=
         match l with
         | [] => Ok code
         | n :: l' => code <- walk src n code ;; elems l' code
         end) l code = walkEach src l code).
    { clear. induction l as [|m l IHl]; intros code; simpl; [reflexivity|].
      destruct (walk src m code); simpl; [apply IHl | reflexivity]. }
    rewrite E. destruct (walkEach src l code); simpl; [apply IHcs | reflexivity].
Qed.

Lemma visited_eq node :
  visited node
  = node :: (if consumed node then [] else flat_map visited (forEachChild node)).
Proof.
  destruct node as [k p w e b cs]. simpl visited.
  set (n := mkNode k p w e b cs).
  destruct (consumed n); [reflexivity|]. f_equal.
  unfold forEachChild, n; simpl children. clear.
  induction cs as [|c cs IHcs]; simpl; [reflexivity|].
  destruct c as [k' p' e'| name m | name p' e' l]; simpl.
  - apply IHcs.
  - rewrite IHcs. reflexivity.
  - rewrite flat_map_app, IHcs. reflexivity.
Qed.

(** A step of the walker only appends to the queue. *)
Definition appends (f : MagicString -> MagicString) : Prop :=
  forall code,
    original (f code) = original code
    /\ edits (f code) = edits code ++ edits (f (newMagicString [])).

Lemma appends_id : appends (fun code => code).
Proof. intros code; simpl. rewrite app_nil_r. auto. Qed.

Lemma appends_overwrite a b c : appends (fun code => overwrite code a b c).
Proof. intros code; simpl. auto. Qed.

Lemma appends_comp {f g} :
  appends f -> appends g -> appends (fun code => g (f code)).
Proof.
  intros Hf Hg code.
  destruct (Hg (f code)) as [Ho He], (Hf code) as [Ho' He'].
  destruct (Hg (f (newMagicString []))) as [_ He''].
  split; [congruence|].
  rewrite He, He', He''. symmetry. apply app_assoc.
Qed.

Lemma appends_eraseAnnotation n : appends (eraseAnnotation n).
Proof.
  unfold eraseAnnotation.
  destruct (type_ n); [|apply appends_id].
  destruct (findKind ColonToken (getChildren n));
    [apply appends_overwrite | apply appends_id].
Qed.

Lemma appends_eraseTypeParameters n : appends (eraseTypeParameters n).
Proof.
  unfold eraseTypeParameters.
  destruct (typeParameters n) as [[|t ts]|]; try apply appends_id.
  destruct (findKind LessThanToken (getChildren n)); [|apply appends_id].
  destruct (findKind GreaterThanToken (getChildren n));
    [apply appends_overwrite | apply appends_id].
Qed.

Lemma appends_fold (ps : list Node) :
  appends (fun code => fold_left (fun c p => eraseAnnotation p c) ps code).
Proof.
  induction ps as [|p ps IH]; simpl; [apply appends_id|].
  apply (appends_comp (appends_eraseAnnotation p) IH).
Qed.

Lemma visit_shape src n :
  (forall code, visit src n code = TypeError)
  \/ (exists f, appends f /\ forall code, visit src n code = Ok (f code)).
Proof.
  unfold visit.
  destruct (isTypeOnlyImport n);
    [right; eexists; split; [apply appends_overwrite | reflexivity]|].
  destruct (isKind NamedImports n).
  { destruct (elements n); [right|left; reflexivity].
    eexists; split; [apply appends_overwrite | reflexivity]. }
  destruct (isTypeOnlyExport n);
    [right; eexists; split; [apply appends_overwrite | reflexivity]|].
  destruct (isKind NamedExports n).
  { destruct (elements n); [right|left; reflexivity].
    eexists; split; [apply appends_overwrite | reflexivity]. }
  destruct (isKind AsExpression n).
  { destruct (expression n); [right|left; reflexivity].
    eexists; split; [apply appends_overwrite | reflexivity]. }
  destruct (isTypeDeclaration n);
    [right; eexists; split; [apply appends_overwrite | reflexivity]|].
  assert (Hv : appends (fun code =>
            if isKind VariableDeclaration n then eraseAnnotation n code
            else code)).
  { destruct (isKind VariableDeclaration n);
      [apply appends_eraseAnnotation | apply appends_id]. }
  destruct (isFunctionLike n).
  - unfold eraseFunctionLike. destruct (parameters n) as [ps|];
      [right|left; reflexivity].
    eexists; split; [|intros code; reflexivity].
    pose (er := fun (c : MagicString) (p : Node) => eraseAnnotation p c).
    apply (appends_comp
             (g := fun c => fold_left er ps
                              (eraseAnnotation n (eraseTypeParameters n c)))
             Hv).
    apply (appends_comp
             (g := fun c => fold_left er ps (eraseAnnotation n c))
             (appends_eraseTypeParameters n)).
    apply (appends_comp (g := fun c => fold_left er ps c)
             (appends_eraseAnnotation n)).
    apply appends_fold.
  - right. eexists; split; [exact Hv | reflexivity].
Qed.

Lemma visit_edits src n code code' :
  visit src n code = Ok code' ->
  original code' = original code
  /\ edits code' = edits code ++ queued src n.
Proof.
  intros H. unfold queued.
  destruct (visit_shape src n) as [E|[f [Hf E]]].
  - rewrite E in H. discriminate.
  - rewrite E in H. injection H as <-. rewrite E. apply Hf.
Qed.

Lemma visit_wellTyped src n code :
  wellTyped n = true -> exists code', visit src n code = Ok code'.
Proof.
  unfold wellTyped, visit.
  destruct (isTypeOnlyImport n); [eauto|].
  destruct (isKind NamedImports n);
    [destruct (elements n); [eauto | discriminate]|].
  destruct (isTypeOnlyExport n); [eauto|].
  destruct (isKind NamedExports n);
    [destruct (elements n); [eauto | discriminate]|].
  destruct (isKind AsExpression n);
    [destruct (expression n); [eauto | discriminate]|].
  destruct (isTypeDeclaration n); [eauto|].
  destruct (isFunctionLike n); [|eauto].
  unfold eraseFunctionLike.
  destruct (parameters n); [eauto | discriminate].
Qed.

(** The queue after a walk: the queue before, then what each visited node
    queues, in visiting order. *)
Lemma walk_edits src : forall n code code',
  walk src n code = Ok code' ->
  original code' = original code
  /\ edits code' = edits code ++ flat_map (queued src) (visited n).
Proof.
  induction n as [n IHn] using Node_children_ind. intros code code'.
  rewrite walk_eq, visited_eq.
  destruct (visit src n code) as [code1|] eqn:Hv; simpl; [|discriminate].
  destruct (visit_edits _ _ _ _ Hv) as [Ho1 He1].
  destruct (consumed n).
  - intros [= <-]. simpl. rewrite app_nil_r. auto.
  - simpl. rewrite app_assoc, <- He1, <- Ho1. clear Hv Ho1 He1 code.
    revert code1. induction IHn as [|m l Hm _ IHl]; intros code1; simpl.
    + intros [= <-]. rewrite app_nil_r. auto.
    + destruct (walk src m code1) as [code2|] eqn:Hw; simpl; [|discriminate].
      intros H. destruct (Hm _ _ Hw) as [Ho2 He2].
      destruct (IHl _ H) as [Ho3 He3].
      split; [congruence|].
      rewrite He3, He2, flat_map_app, app_assoc. reflexivity.
Qed.

(** The walk returns when every visited node is well typed. *)
Lemma walk_total src : forall n code,
  (forall m, In m (visited n) -> wellTyped m = true) ->
  exists code', walk src n code = Ok code'.
Proof.
  induction n as [n IHn] using Node_children_ind. intros code.
  rewrite walk_eq, visited_eq. intros Hwt.
  destruct (visit_wellTyped src n code (Hwt n (or_introl eq_refl)))
    as [code1 ->]. simpl.
  destruct (consumed n); [eauto|].
  assert (Hl : forall m, In m (flat_map visited (forEachChild n)) ->
                         wellTyped m = true).
  { intros m Hm. apply Hwt. right. exact Hm. }
  clear Hwt. revert code1 Hl.
  induction IHn as [|m l Hm _ IHl]; intros code1 Hl; simpl; [eauto|].
  destruct (Hm code1) as [code2 ->].
  { intros x Hx. apply Hl. simpl. apply in_or_app. auto. }
  simpl. apply IHl. intros x Hx. apply Hl. simpl. apply in_or_app. auto.
Qed.

(** Every visited node's own edits are in the final queue. *)
Lemma walk_queued src root code code' n e :
  walk src root code = Ok code' ->
  In n (visited root) -> In e (queued src n) -> In e (edits code').
Proof.
  intros Hw Hn He. destruct (walk_edits _ _ _ _ Hw) as [_ ->].
  apply in_or_app. right. apply in_flat_map. eauto.
Qed.

(** ** Kinds exclude each other *)

Lemma isKind_true k n : isKind k n = true <-> kind n = k.
Proof. apply kind_eqb_eq. Qed.

Lemma isKind_other k k' n : isKind k n = true -> k <> k' -> isKind k' n = false.
Proof.
  intros H Hne. apply isKind_true in H. unfold isKind, kind_eqb.
  destruct (SyntaxKind_eq_dec (kind n) k'); congruence.
Qed.

(** With [H : isKind K n = true], decide every kind test on [n]. *)
Ltac decide_kinds H :=
  unfold consumed, deletesWhole, recognized, wellTyped, isTypeOnlyImport,
    isTypeOnlyExport, isTypeDeclaration, isFunctionLike in *;
  repeat match goal with
         | |- context [isKind ?k ?n] =>
             first [ rewrite H
                   | rewrite (isKind_other _ k n H) by discriminate ]
         end;
  simpl.

Lemma visit_deletesWhole src n code :
  deletesWhole n = true ->
  visit src n code = Ok (overwrite code (pos n) (end_ n) []).
Proof.
  unfold deletesWhole. intros H.
  apply orb_true_iff in H as [H|H]; [apply orb_true_iff in H as [H|H]|].
  - unfold visit. rewrite H. reflexivity.
  - unfold visit. rewrite H.
    unfold isTypeOnlyExport in H. apply andb_true_iff in H as [H _].
    decide_kinds H. reflexivity.
  - unfold visit. rewrite H.
    unfold isTypeDeclaration in H.
    repeat (apply orb_true_iff in H as [H|H]); decide_kinds H;
      reflexivity.
Qed.

Lemma visit_NamedImports src n code :
  isKind NamedImports n = true ->
  visit src n code
  = match elements n with
    | Some es => Ok (overwrite code (pos n) (end_ n)
                       (keptSpecifiers src (txt ",") es))
    | None => TypeError
    end.
Proof. intros H. unfold visit. decide_kinds H. reflexivity. Qed.

Lemma visit_NamedExports src n code :
  isKind NamedExports n = true ->
  visit src n code
  = match elements n with
    | Some es => Ok (overwrite code (pos n) (end_ n)
                       (keptSpecifiers src (txt ", ") es))
    | None => TypeError
    end.
Proof. intros H. unfold visit. decide_kinds H. reflexivity. Qed.

Lemma visit_AsExpression src n code :
  isKind AsExpression n = true ->
  visit src n code
  = match expression n with
    | Some e => Ok (overwrite code (pos n) (end_ n) (getText src e))
    | None => TypeError
    end.
Proof. intros H. unfold visit. decide_kinds H. reflexivity. Qed.

Lemma visit_VariableDeclaration src n code :
  isKind VariableDeclaration n = true ->
  visit src n code = Ok (eraseAnnotation n code).
Proof. intros H. unfold visit. decide_kinds H. reflexivity. Qed.

Lemma visit_functionLike src n code :
  isFunctionLike n = true ->
  visit src n code = eraseFunctionLike n code.
Proof.
  intros H. unfold visit. rewrite H.
  unfold isFunctionLike in H.
  repeat (apply orb_true_iff in H as [H|H]); decide_kinds H; reflexivity.
Qed.

Lemma consumed_cases n :
  consumed n = true ->
  deletesWhole n = true \/ isKind NamedImports n = true
  \/ isKind NamedExports n = true \/ isKind AsExpression n = true.
Proof.
  unfold consumed, deletesWhole.
  destruct (isTypeOnlyImport n), (isKind NamedImports n),
    (isTypeOnlyExport n), (isKind NamedExports n), (isKind AsExpression n),
    (isTypeDeclaration n); simpl; auto.
Qed.

Lemma visit_plain src n code :
  consumed n = false -> isKind VariableDeclaration n = false ->
  isFunctionLike n = false -> visit src n code = Ok code.
Proof.
  unfold consumed, visit. intros Hc Hv Hf.
  repeat (apply orb_false_iff in Hc as [Hc ?]).
  rewrite Hc, Hv, Hf.
  repeat match goal with H : _ = false |- _ => rewrite H; clear H end.
  reflexivity.
Qed.

Lemma visit_ok_wellTyped src n code code' :
  visit src n code = Ok code' -> wellTyped n = true.
Proof.
  intros Hv. unfold wellTyped.
  destruct (isKind NamedImports n) eqn:Hi.
  { rewrite visit_NamedImports in Hv by exact Hi.
    destruct (elements n); [|discriminate]. decide_kinds Hi. reflexivity. }
  destruct (isKind NamedExports n) eqn:He.
  { rewrite visit_NamedExports in Hv by exact He.
    destruct (elements n); [|discriminate]. decide_kinds He. reflexivity. }
  destruct (isKind AsExpression n) eqn:Ha.
  { rewrite visit_AsExpression in Hv by exact Ha.
    destruct (expression n); [|discriminate]. decide_kinds Ha. reflexivity. }
  destruct (isFunctionLike n) eqn:Hf; [|reflexivity].
  rewrite visit_functionLike in Hv by exact Hf. unfold eraseFunctionLike in Hv.
  destruct (parameters n); [reflexivity | discriminate].
Qed.

(** A walk that returns read no missing property. *)
Lemma walk_ok_wellTyped src : forall root code code',
  walk src root code = Ok code' ->
  forall n, In n (visited root) -> wellTyped n = true.
Proof.
  induction root as [r IHr] using Node_children_ind. intros code code'.
  rewrite walk_eq, visited_eq.
  destruct (visit src r code) as [code1|] eqn:Hv; simpl; [|discriminate].
  intros Hw n [<-|Hn]; [eapply visit_ok_wellTyped; eauto|].
  destruct (consumed r); [destruct Hn|].
  clear Hv. revert code1 Hw Hn.
  induction IHr as [|m l Hm _ IHl]; intros code1 Hw Hn; simpl in *;
    [destruct Hn|].
  destruct (walk src m code1) as [code2|] eqn:Hw1; simpl in Hw; [|discriminate].
  apply in_app_or in Hn as [Hn|Hn]; eauto.
Qed.

(** ** The render *)

Lemma inserted_none es p :
  (forall e, In e es -> e_start e <> p) -> inserted es p = [].
Proof.
  unfold inserted. induction es as [|e es IH]; intros H; simpl; [reflexivity|].
  destruct (Nat.eqb_spec (e_start e) p) as [E|_].
  - exfalso. apply (H e); simpl; auto.
  - simpl. apply IH. intros e' He'. apply H. simpl; auto.
Qed.

Lemma replaced_false es p :
  (forall e, In e es -> e_end e <= p \/ p < e_start e) -> replaced es p = false.
Proof.
  unfold replaced. induction es as [|e es IH]; intros H; simpl; [reflexivity|].
  rewrite IH by (intros e' He'; apply H; simpl; auto).
  rewrite orb_false_r. unfold covers.
  destruct (H e (or_introl eq_refl)) as [Hle|Hlt].
  - apply andb_false_iff. right. apply Nat.ltb_ge. exact Hle.
  - apply andb_false_iff. left. apply Nat.leb_gt. exact Hlt.
Qed.

Lemma replaced_true es e p :
  In e es -> e_start e <= p < e_end e -> replaced es p = true.
Proof.
  intros He [H1 H2]. unfold replaced. apply existsb_exists. exists e.
  split; [exact He|]. unfold covers.
  apply andb_true_iff. split; [apply Nat.leb_le | apply Nat.ltb_lt]; assumption.
Qed.

(** What is rendered before a position does not matter for what follows. *)
Lemma render_skip es : forall l1 p rest,
  exists X, render es p (l1 ++ rest) = X ++ render es (p + List.length l1) rest.
Proof.
  induction l1 as [|c l1 IH]; intros p rest; simpl.
  - exists []. rewrite Nat.add_0_r. reflexivity.
  - destruct (IH (S p) rest) as [X ->].
    exists (inserted es p ++ (if replaced es p then [] else [c]) ++ X).
    replace (p + S (List.length l1)) with (S p + List.length l1) by lia.
    rewrite <- !app_assoc. reflexivity.
Qed.

(** A stretch of the original that lies outside every queued edit is
    rendered as it is. *)
Lemma render_keep es : forall mid p rest,
  (forall e, In e es -> outside e p (p + List.length mid)) ->
  exists Y, render es p (mid ++ rest) = inserted es p ++ mid ++ Y.
Proof.
  induction mid as [|c mid IH]; intros p rest Hout; simpl.
  - destruct rest as [|c rest]; simpl; [|eauto].
    exists []. rewrite app_nil_r. reflexivity.
  - rewrite replaced_false.
    2:{ intros e He. destruct (Hout e He) as [[_ H]|H]; simpl in H; lia. }
    destruct (IH (S p) rest) as [Y HY].
    { intros e He. unfold outside.
      destruct (Hout e He) as [[H1 H2]|H]; simpl in *; lia. }
    rewrite HY. destruct mid as [|c' mid]; simpl.
    + eauto.
    + rewrite (inserted_none es (S p)); [simpl; eauto|].
      intros e He. destruct (Hout e He) as [[H1 H2]|H]; simpl in *; lia.
Qed.

Lemma substring_split (a b : nat) (t : text) :
  a <= b <= List.length t ->
  t = firstn a t ++ substring a b t ++ skipn b t
  /\ List.length (firstn a t) = a /\ List.length (substring a b t) = b - a.
Proof.
  intros [Hab Hb]. unfold substring.
  rewrite Nat.max_r, Nat.min_l by lia.
  split; [|split].
  - rewrite <- (firstn_skipn a t) at 1. f_equal.
    rewrite <- (firstn_skipn (b - a) (skipn a t)) at 1. f_equal.
    rewrite skipn_skipn. f_equal. lia.
  - apply firstn_length_le. lia.
  - rewrite firstn_length_le; [lia|]. rewrite length_skipn. lia.
Qed.

(** The frame property of the buffer: a range of the original outside
    every queued edit is found verbatim in the rendered text. *)
Lemma toString_outside code a b :
  a <= b <= List.length (original code) ->
  (forall e, In e (edits code) -> outside e a b) ->
  exists X Y, toString code = X ++ substring a b (original code) ++ Y.
Proof.
  intros Hab Hout. unfold toString.
  destruct (substring_split a b (original code) Hab) as [Hsplit [Hl1 Hl2]].
  set (l1 := firstn a (original code)) in *.
  set (mid := substring a b (original code)) in *.
  set (l2 := skipn b (original code)) in *.
  rewrite Hsplit.
  destruct (render_skip (edits code) l1 0 (mid ++ l2)) as [X ->].
  destruct (render_keep (edits code) mid (0 + List.length l1) l2) as [Y ->].
  { intros e He. rewrite Hl1, Hl2. simpl.
    destruct (Hout e He) as [H|H]; [left; exact H | right; lia]. }
  exists (X ++ inserted (edits code) (0 + List.length l1)), Y.
  rewrite <- !app_assoc. reflexivity.
Qed.

(** One edit alone: the render is the original with [[start, end)]
    replaced by the edit's text. *)
Lemma render_after e : forall rest p,
  e_start e < p -> e_end e <= p -> render [e] p rest = rest.
Proof.
  induction rest as [|c rest IH]; intros p Hs He; simpl.
  - destruct (Nat.eqb_spec (e_start e) p); [lia | reflexivity].
  - destruct (Nat.eqb_spec (e_start e) p); [lia|]. simpl.
    unfold covers. replace (p <? e_end e) with false
      by (symmetry; apply Nat.ltb_ge; lia).
    rewrite andb_false_r. simpl. rewrite IH by lia. reflexivity.
Qed.

Lemma render_inside e : forall rest p,
  e_start e < p -> p <= e_end e -> e_end e <= p + List.length rest ->
  render [e] p rest = skipn (e_end e - p) rest.
Proof.
  induction rest as [|c rest IH]; intros p Hs He Hl; simpl.
  - destruct (Nat.eqb_spec (e_start e) p); [lia|].
    rewrite skipn_nil. reflexivity.
  - destruct (Nat.eqb_spec (e_start e) p); [lia|]. simpl.
    unfold covers. replace (e_start e <=? p) with true
      by (symmetry; apply Nat.leb_le; lia).
    destruct (Nat.ltb_spec p (e_end e)) as [Hlt|Hge]; simpl.
    + rewrite IH by (simpl in Hl; lia).
      replace (e_end e - p) with (S (e_end e - S p)) by lia. reflexivity.
    + rewrite render_after by lia.
      replace (e_end e - p) with 0 by lia. reflexivity.
Qed.

Lemma render_before e : forall rest p,
  p <= e_start e -> e_start e <= e_end e ->
  e_end e <= p + List.length rest ->
  render [e] p rest
  = firstn (e_start e - p) rest ++ e_content e ++ skipn (e_end e - p) rest.
Proof.
  induction rest as [|c rest IH]; intros p Hs Hse Hl; simpl in *.
  - replace (e_start e) with p by lia. rewrite Nat.eqb_refl.
    rewrite firstn_nil, skipn_nil. reflexivity.
  - destruct (Nat.eqb_spec (e_start e) p) as [E|N]; simpl.
    + rewrite app_nil_r. replace (e_start e - p) with 0 by lia. simpl.
      f_equal. unfold covers.
      replace (e_start e <=? p) with true by (symmetry; apply Nat.leb_le; lia).
      destruct (Nat.ltb_spec p (e_end e)) as [Hlt|Hge]; simpl.
      * rewrite render_inside by lia.
        replace (e_end e - p) with (S (e_end e - S p)) by lia. reflexivity.
      * rewrite render_after by lia.
        replace (e_end e - p) with 0 by lia. reflexivity.
    + unfold covers.
      replace (e_start e <=? p) with false
        by (symmetry; apply Nat.leb_gt; lia).
      simpl. rewrite IH by lia.
      replace (e_start e - p) with (S (e_start e - S p)) by lia.
      replace (e_end e - p) with (S (e_end e - S p)) by lia. reflexivity.
Qed.

Lemma toString_overwrite src a b content :
  a <= b <= List.length src ->
  toString (overwrite (newMagicString src) a b content)
  = firstn a src ++ content ++ skipn b src.
Proof.
  intros [Hab Hb]. unfold toString. simpl.
  rewrite render_before by (simpl; lia). simpl.
  rewrite !Nat.sub_0_r. reflexivity.
Qed.

(** Without edits the render is the original. *)
Lemma render_nil : forall t p, render [] p t = t.
Proof.
  induction t as [|c t IH]; intros p; simpl; [reflexivity|].
  rewrite IH. reflexivity.
Qed.

(** ** Where the queued edits come from *)

Lemma eraseAnnotation_edits m code e :
  In e (edits (eraseAnnotation m code)) ->
  In e (edits code) \/ annotationOf m e.
Proof.
  unfold eraseAnnotation.
  destruct (type_ m) as [ty|] eqn:Hty; [|auto].
  destruct (findKind ColonToken (getChildren m)) as [c|] eqn:Hc; [|auto].
  simpl. intros H. apply in_app_or in H as [H|[<-|[]]]; [auto|].
  right. apply find_some in Hc as [Hin Hk]. apply isKind_true in Hk.
  exists ty, c. auto.
Qed.

Lemma eraseAnnotation_queues m code ty colonToken :
  type_ m = Some ty ->
  findKind ColonToken (getChildren m) = Some colonToken ->
  edits (eraseAnnotation m code)
  = edits code ++ [mkEdit (pos colonToken) (end_ ty) []].
Proof. intros Hty Hc. unfold eraseAnnotation. rewrite Hty, Hc. reflexivity. Qed.

Lemma eraseAnnotation_keeps m code e :
  In e (edits code) -> In e (edits (eraseAnnotation m code)).
Proof.
  intros H. destruct (appends_eraseAnnotation m code) as [_ ->].
  apply in_or_app. auto.
Qed.

Lemma eraseTypeParameters_edits n code e :
  In e (edits (eraseTypeParameters n code)) ->
  In e (edits code)
  \/ exists ltToken gtToken,
       hasTypeParameters n = true
       /\ In ltToken (getChildren n) /\ kind ltToken = LessThanToken
       /\ In gtToken (getChildren n) /\ kind gtToken = GreaterThanToken
       /\ e = mkEdit (pos ltToken) (end_ gtToken) [].
Proof.
  unfold eraseTypeParameters, hasTypeParameters.
  destruct (typeParameters n) as [[|t ts]|]; auto.
  destruct (findKind LessThanToken (getChildren n)) as [l|] eqn:Hl; [|auto].
  destruct (findKind GreaterThanToken (getChildren n)) as [g|] eqn:Hg; [|auto].
  simpl. intros H. apply in_app_or in H as [H|[<-|[]]]; [auto|].
  right. apply find_some in Hl as [Hlin Hlk], Hg as [Hgin Hgk].
  apply isKind_true in Hlk, Hgk. exists l, g. auto 10.
Qed.

Lemma eraseParameters_edits ps : forall code e,
  In e (edits (fold_left (fun c p => eraseAnnotation p c) ps code)) ->
  In e (edits code) \/ exists p, In p ps /\ annotationOf p e.
Proof.
  induction ps as [|p ps IH]; intros code e; simpl; [auto|].
  intros H. apply IH in H as [H|[q [Hq Ha]]].
  - apply eraseAnnotation_edits in H as [H|H]; [auto|right; eauto].
  - right; eauto.
Qed.

Lemma eraseParameters_keeps ps : forall code e,
  In e (edits code) ->
  In e (edits (fold_left (fun c p => eraseAnnotation p c) ps code)).
Proof.
  induction ps as [|p ps IH]; intros code e H; simpl; [exact H|].
  apply IH, eraseAnnotation_keeps, H.
Qed.

Lemma eraseParameters_queues ps : forall code p ty colonToken,
  In p ps -> type_ p = Some ty ->
  findKind ColonToken (getChildren p) = Some colonToken ->
  In (mkEdit (pos colonToken) (end_ ty) [])
     (edits (fold_left (fun c p => eraseAnnotation p c) ps code)).
Proof.
  induction ps as [|q ps IH]; intros code p ty c Hin Hty Hc; [destruct Hin|].
  simpl. destruct Hin as [->|Hin]; [|eapply IH; eauto].
  apply eraseParameters_keeps.
  rewrite (eraseAnnotation_queues _ _ _ _ Hty Hc).
  apply in_or_app. right. simpl. auto.
Qed.

Lemma queued_visit src n code :
  visit src n (newMagicString []) = Ok code -> queued src n = edits code.
Proof. intros H. unfold queued. rewrite H. reflexivity. Qed.

Lemma queued_deletesWhole src n :
  deletesWhole n = true -> queued src n = [mkEdit (pos n) (end_ n) []].
Proof.
  intros H. erewrite queued_visit by (apply visit_deletesWhole; exact H).
  reflexivity.
Qed.

(** Every edit a node queues is the edit of a rule applied at it. *)
Lemma queued_ruleEdit src n e : In e (queued src n) -> ruleEdit n e.
Proof.
  unfold queued. destruct (consumed n) eqn:Hc.
  - intros H. left. split; [exact Hc|].
    destruct (consumed_cases _ Hc) as [Hd|[Hi|[He|Ha]]].
    + rewrite visit_deletesWhole in H by exact Hd.
      destruct H as [<-|[]]. auto.
    + rewrite visit_NamedImports in H by exact Hi.
      destruct (elements n); [destruct H as [<-|[]]; auto | destruct H].
    + rewrite visit_NamedExports in H by exact He.
      destruct (elements n); [destruct H as [<-|[]]; auto | destruct H].
    + rewrite visit_AsExpression in H by exact Ha.
      destruct (expression n); [destruct H as [<-|[]]; auto | destruct H].
  - destruct (isKind VariableDeclaration n) eqn:Hv.
    { rewrite visit_VariableDeclaration by exact Hv. intros H.
      apply eraseAnnotation_edits in H as [[]|H]. right; left; auto. }
    destruct (isFunctionLike n) eqn:Hf.
    { rewrite visit_functionLike by exact Hf. unfold eraseFunctionLike.
      destruct (parameters n) as [ps|] eqn:Hps; [|intros []].
      intros H. right; right. split; [exact Hf|].
      apply eraseParameters_edits in H as [H|[p [Hp Ha]]].
      - apply eraseAnnotation_edits in H as [H|H]; [|auto].
        apply eraseTypeParameters_edits in H as [[]|H]. auto.
      - right; left. eauto. }
    rewrite visit_plain by assumption. intros [].
Qed.

(** Every edit of the final queue was queued by a rule at a visited node. *)
Lemma walk_ruleEdit src root code' e :
  walk src root (newMagicString src) = Ok code' ->
  In e (edits code') ->
  exists n, In n (visited root) /\ ruleEdit n e.
Proof.
  intros Hw He. destruct (walk_edits _ _ _ _ Hw) as [_ E].
  rewrite E in He. simpl in He. apply in_flat_map in He as [n [Hn Hq]].
  exists n. split; [exact Hn | eapply queued_ruleEdit; eauto].
Qed.

(** A rule that matched ends the walk of the subtree. *)
Lemma consumed_stops n : consumed n = true -> visited n = [n].
Proof. intros H. rewrite visited_eq, H. reflexivity. Qed.

Lemma visited_allNodes : forall n m, In m (visited n) -> In m (allNodes n).
Proof.
  fix IH 1. intros [k p w e b cs] m. simpl visited. simpl allNodes.
  intros [H|H]; [left; exact H|right].
  destruct (consumed (mkNode k p w e b cs)); [destruct H|].
  revert H. induction cs as [|c cs IHcs]; simpl; [auto|].
  destruct c as [k' p' e'| name x | name p' e' l]; simpl.
  - exact IHcs.
  - intros H. apply in_app_or in H as [H|H]; apply in_or_app; auto.
  - intros H. apply in_app_or in H as [H|H]; apply in_or_app; [left|auto].
    clear IHcs. revert H. induction l as [|x l IHl]; simpl; [auto|].
    intros H. apply in_app_or in H as [H|H]; apply in_or_app; auto.
Qed.

(** ** The claims *)

Ltac in_list := cbv; repeat (first [left; reflexivity | right]).

(** C1 (the code breaks the claim).  The queued edits are not pairwise
    disjoint on every input.  For [let x: { [1 as any]: string };] the
    declarator rule queues the deletion of [: { [1 as any]: string }], the
    range [[5, 29)], and the walk then descends into the declared type, where
    the assertion rule queues the replacement of [[10, 18)], inside the first
    range.  The part of the claim on whole-range rules holds
    ([consumed_stops]): at the assertion the walk stops. *)
Theorem walk_overlapping_edits :
  In cast_in_type (visited ast_cast_in_type)
  /\ visited cast_in_type = [cast_in_type]
  /\ exists code',
       walk src_cast_in_type ast_cast_in_type (newMagicString src_cast_in_type)
       = Ok code'
       /\ edits code' = [mkEdit 5 29 []; mkEdit 10 18 (txt "1")]
       /\ overlap (mkEdit 5 29 []) (mkEdit 10 18 (txt "1")).
Proof.
  split; [in_list|]. split; [apply consumed_stops; reflexivity|].
  eexists. split; [vm_compute; reflexivity|].
  split; [reflexivity|]. unfold overlap; simpl; lia.
Qed.

(** C2 as stated fails: in [(() => { type T = U; }) as V;] the type alias is
    a declaration of the parsed tree, the walker stops at the enclosing
    assertion, queues no deletion of the alias, and the replacement text of
    the assertion carries the declaration into the rendered output. *)
Lemma type_alias_in_cast_survives :
  In alias_in_cast (allNodes ast_alias_in_cast)
  /\ deletesWhole alias_in_cast = true
  /\ exists code',
       walk src_alias_in_cast ast_alias_in_cast
            (newMagicString src_alias_in_cast) = Ok code'
       /\ ~ In (mkEdit (pos alias_in_cast) (end_ alias_in_cast) [])
              (edits code')
       /\ toString code'
          = txt "(() => { " ++ getText src_alias_in_cast alias_in_cast
            ++ txt " });".
Proof.
  split; [in_list|]. split; [reflexivity|].
  eexists. split; [vm_compute; reflexivity|].
  split; [|reflexivity].
  simpl. intros [H|[]]. discriminate H.
Qed.

(** C2 (amended).  For every type-only import declaration, type-only export
    declaration, type-alias, interface, enum and module or namespace
    declaration that the walker visits, that is, one not nested in a node
    an earlier rule replaced whole, the walk queues the overwrite of the
    declaration's range [[pos, end)] with the empty string, and no character
    of that range is copied into the rendered output. *)
Theorem walk_deletes_visited_declaration src root code code' n :
  walk src root code = Ok code' ->
  In n (visited root) ->
  deletesWhole n = true ->
  In (mkEdit (pos n) (end_ n) []) (edits code')
  /\ forall p, pos n <= p < end_ n -> replaced (edits code') p = true.
Proof.
  intros Hw Hn Hd.
  assert (Hin : In (mkEdit (pos n) (end_ n) []) (edits code')).
  { eapply walk_queued; eauto. rewrite queued_deletesWhole by exact Hd.
    simpl; auto. }
  split; [exact Hin|].
  intros p Hp. eapply replaced_true; eauto.
Qed.

Lemma walk_deletes_visited_declaration_witness :
  walk src_commented_alias ast_commented_alias
       (newMagicString src_commented_alias)
  = Ok (mkMagicString src_commented_alias [mkEdit 0 19 []])
  /\ In commented_alias (visited ast_commented_alias)
  /\ deletesWhole commented_alias = true
  /\ In (mkEdit 0 19 []) [mkEdit 0 19 []]
  /\ forall p, 0 <= p < 19 -> replaced [mkEdit 0 19 []] p = true.
Proof.
  assert (Hw : walk src_commented_alias ast_commented_alias
                    (newMagicString src_commented_alias)
               = Ok (mkMagicString src_commented_alias [mkEdit 0 19 []]))
    by (vm_compute; reflexivity).
  assert (Hn : In commented_alias (visited ast_commented_alias)) by in_list.
  assert (Hd : deletesWhole commented_alias = true) by reflexivity.
  split; [exact Hw|]. split; [exact Hn|]. split; [exact Hd|].
  exact (walk_deletes_visited_declaration _ _ _ _ _ Hw Hn Hd).
Defined.

(** C10.  When the walk deletes a whole declaration, the queued range starts
    at the node's [pos], at or before [getStart()]: the leading trivia, a
    comment or white space before the declaration, is in the deleted range,
    of which no character is copied into the output, while every range of
    the original outside the queued edits is rendered verbatim. *)
Theorem deletion_takes_leading_trivia src root code' n :
  walk src root (newMagicString src) = Ok code' ->
  In n (visited root) ->
  deletesWhole n = true ->
  In (mkEdit (pos n) (end_ n) []) (edits code')
  /\ pos n <= getStart n
  /\ (forall p, pos n <= p < end_ n -> replaced (edits code') p = true)
  /\ (forall a b,
         a <= b <= List.length src ->
         (forall e, In e (edits code') -> outside e a b) ->
         exists X Y, toString code' = X ++ substring a b src ++ Y).
Proof.
  intros Hw Hn Hd.
  destruct (walk_deletes_visited_declaration _ _ _ _ _ Hw Hn Hd) as [Hin Hrep].
  split; [exact Hin|]. split; [unfold getStart; lia|]. split; [exact Hrep|].
  intros a b Hab Hout.
  destruct (walk_edits _ _ _ _ Hw) as [Ho _]. simpl in Ho.
  rewrite <- Ho in Hab |- *. apply toString_outside; assumption.
Qed.

Lemma deletion_takes_leading_trivia_witness :
  walk src_commented_alias ast_commented_alias
       (newMagicString src_commented_alias)
  = Ok (mkMagicString src_commented_alias [mkEdit 0 19 []])
  /\ In commented_alias (visited ast_commented_alias)
  /\ deletesWhole commented_alias = true
  /\ getText src_commented_alias commented_alias = txt "type A = B;"
  /\ show (toString (mkMagicString src_commented_alias [mkEdit 0 19 []]))
     = " f;"%string
  /\ In (mkEdit 0 19 []) [mkEdit 0 19 []]
  /\ 0 <= 8
  /\ (forall p, 0 <= p < 19 -> replaced [mkEdit 0 19 []] p = true)
  /\ (forall a b,
         a <= b <= 22 ->
         (forall e, In e [mkEdit 0 19 []] -> outside e a b) ->
         exists X Y,
           toString (mkMagicString src_commented_alias [mkEdit 0 19 []])
           = X ++ substring a b src_commented_alias ++ Y).
Proof.
  assert (Hw : walk src_commented_alias ast_commented_alias
                    (newMagicString src_commented_alias)
               = Ok (mkMagicString src_commented_alias [mkEdit 0 19 []]))
    by (vm_compute; reflexivity).
  assert (Hn : In commented_alias (visited ast_commented_alias)) by in_list.
  assert (Hd : deletesWhole commented_alias = true) by reflexivity.
  split; [exact Hw|]. split; [exact Hn|]. split; [exact Hd|].
  split; [reflexivity|]. split; [reflexivity|].
  exact (deletion_takes_leading_trivia _ _ _ _ Hw Hn Hd).
Defined.

Lemma filter_all_typeOnly (es : list Node) :
  forallb isTypeOnly es = true ->
  filter (fun e => negb (isTypeOnly e)) es = [].
Proof.
  induction es as [|e es IH]; simpl; [reflexivity|].
  intros H. apply andb_true_iff in H as [He Hes].
  rewrite He. simpl. apply IH, Hes.
Qed.

Lemma wellTyped_elements n :
  wellTyped n = true ->
  isKind NamedImports n = true \/ isKind NamedExports n = true ->
  exists es, elements n = Some es.
Proof.
  unfold wellTyped. intros H Hk.
  assert (Hor : isKind NamedImports n || isKind NamedExports n = true)
    by (apply orb_true_iff; exact Hk).
  rewrite Hor in H. destruct (elements n) as [es|]; [eauto|discriminate].
Qed.

(** C3 as stated fails: in [declare module 'm' { import { A } from 'x'; }]
    the named-import list is in no type-only import declaration (the tree has
    none), yet the walker stops at the module declaration: the list's range
    is not replaced by a braced list, and the import statement is not in the
    rendered output. *)
Lemma import_list_in_module_not_rewritten :
  In imports_in_module (allNodes ast_import_in_module)
  /\ isKind NamedImports imports_in_module = true
  /\ forallb (fun n => negb (isTypeOnlyImport n))
       (allNodes ast_import_in_module) = true
  /\ exists code',
       walk src_import_in_module ast_import_in_module
            (newMagicString src_import_in_module) = Ok code'
       /\ edits code' = [mkEdit 0 45 []]
       /\ ~ In (mkEdit (pos imports_in_module) (end_ imports_in_module)
                  (txt "{A}")) (edits code')
       /\ toString code' = [].
Proof.
  split; [in_list|]. split; [reflexivity|]. split; [reflexivity|].
  eexists. split; [vm_compute; reflexivity|].
  split; [reflexivity|]. split; [|reflexivity].
  simpl. intros [H|[]]. discriminate H.
Qed.

(** C3 (amended).  For every named-import specifier list the walker visits
    (one not inside a type-only import declaration, a module or namespace
    declaration or another node replaced whole), the walk replaces the list's
    range [[pos, end)], and nothing else at that node, with the non-type-only
    specifiers' source texts in their order, joined by commas and wrapped in
    braces; when every specifier is type-only the replacement is [{}].  What
    lies outside the queued ranges, the [import] keyword and the module
    specifier among it, is rendered as written:
    [import { type Foo } from './foo';] renders as
    [import{} from './foo';]. *)
Theorem walk_filters_visited_imports src root code' n :
  walk src root (newMagicString src) = Ok code' ->
  In n (visited root) ->
  isKind NamedImports n = true ->
  exists es,
    elements n = Some es
    /\ queued src n
       = [mkEdit (pos n) (end_ n)
            (txt "{"
             ++ join (txt ",")
                  (map (getText src)
                     (filter (fun e => negb (isTypeOnly e)) es))
             ++ txt "}")]
    /\ (forall e, In e (queued src n) -> In e (edits code'))
    /\ (forallb isTypeOnly es = true ->
        queued src n = [mkEdit (pos n) (end_ n) (txt "{}")])
    /\ (forall a b,
           a <= b <= List.length src ->
           (forall e, In e (edits code') -> outside e a b) ->
           exists X Y, toString code' = X ++ substring a b src ++ Y)
    /\ rendered src_import_types ast_import_types
       = Ok "import{} from './foo';"%string.
Proof.
  intros Hw Hn Hk.
  destruct (wellTyped_elements n (walk_ok_wellTyped _ _ _ _ Hw n Hn)
              (or_introl Hk)) as [es Hes].
  assert (Hq : queued src n
               = [mkEdit (pos n) (end_ n) (keptSpecifiers src (txt ",") es)]).
  { unfold queued. rewrite visit_NamedImports by exact Hk. rewrite Hes.
    reflexivity. }
  exists es. split; [exact Hes|]. split; [exact Hq|].
  split; [intros e He; eapply walk_queued; eauto|].
  split; [|split; [|reflexivity]].
  - intros Hall. rewrite Hq. unfold keptSpecifiers.
    rewrite filter_all_typeOnly by exact Hall. reflexivity.
  - intros a b Hab Hout.
    destruct (walk_edits _ _ _ _ Hw) as [Ho _]. simpl in Ho.
    rewrite <- Ho in Hab |- *. apply toString_outside; assumption.
Qed.

Lemma walk_filters_visited_imports_witness :
  walk src_import_mixed ast_import_mixed (newMagicString src_import_mixed)
  = Ok (mkMagicString src_import_mixed [mkEdit 6 24 (txt "{Bar}")])
  /\ In imports_mixed (visited ast_import_mixed)
  /\ isKind NamedImports imports_mixed = true
  /\ queued src_import_mixed imports_mixed = [mkEdit 6 24 (txt "{Bar}")]
  /\ (exists X Y,
         toString (mkMagicString src_import_mixed [mkEdit 6 24 (txt "{Bar}")])
         = X ++ txt "import" ++ Y)
  /\ (exists X Y,
         toString (mkMagicString src_import_mixed [mkEdit 6 24 (txt "{Bar}")])
         = X ++ txt " from './foo';" ++ Y).
Proof.
  assert (Hw : walk src_import_mixed ast_import_mixed
                    (newMagicString src_import_mixed)
               = Ok (mkMagicString src_import_mixed
                       [mkEdit 6 24 (txt "{Bar}")]))
    by (vm_compute; reflexivity).
  assert (Hn : In imports_mixed (visited ast_import_mixed)) by in_list.
  assert (Hk : isKind NamedImports imports_mixed = true) by reflexivity.
  split; [exact Hw|]. split; [exact Hn|]. split; [exact Hk|].
  split; [reflexivity|].
  destruct (walk_filters_visited_imports _ _ _ _ Hw Hn Hk)
    as [es [_ [_ [_ [_ [Hkeep _]]]]]].
  split.
  - apply (Hkeep 0 6); [simpl; lia|].
    intros e [<-|[]]. right. simpl. lia.
  - apply (Hkeep 24 38); [simpl; lia|].
    intros e [<-|[]]. left. simpl. lia.
Defined.

(** C8 as stated fails: for [export { type Foo, Bar } from './foo';] the
    replacement text is [{Bar}]; the character after the opening brace is
    the first character of the first kept specifier, and the text holds no
    space. *)
Lemma export_list_has_no_space_after_brace :
  In exports_mixed (visited ast_export_mixed)
  /\ isKind NamedExports exports_mixed = true
  /\ exists code',
       walk src_export_mixed ast_export_mixed
            (newMagicString src_export_mixed) = Ok code'
       /\ edits code' = [mkEdit 6 24 (txt "{Bar}")]
       /\ nth_error (txt "{Bar}") 1 = Some "B"%char
       /\ ~ In " "%char (txt "{Bar}").
Proof.
  split; [in_list|]. split; [reflexivity|].
  eexists. split; [vm_compute; reflexivity|].
  split; [reflexivity|]. split; [reflexivity|].
  simpl. intros H.
  repeat (destruct H as [H|H]; [discriminate H|]). exact H.
Qed.

(** C8 (amended).  For every named-export specifier list the walker visits,
    the replacement follows the filtering rule of named imports, and the
    kept specifiers are joined by a comma followed by a space; the opening
    brace is followed directly by the first kept specifier. *)
Theorem walk_filters_visited_exports src root code code' n :
  walk src root code = Ok code' ->
  In n (visited root) ->
  isKind NamedExports n = true ->
  exists es,
    elements n = Some es
    /\ queued src n
       = [mkEdit (pos n) (end_ n)
            (txt "{"
             ++ join (txt ", ")
                  (map (getText src)
                     (filter (fun e => negb (isTypeOnly e)) es))
             ++ txt "}")]
    /\ (forall e, In e (queued src n) -> In e (edits code')).
Proof.
  intros Hw Hn Hk.
  destruct (wellTyped_elements n (walk_ok_wellTyped _ _ _ _ Hw n Hn)
              (or_intror Hk)) as [es Hes].
  exists es. split; [exact Hes|]. split.
  - unfold queued. rewrite visit_NamedExports by exact Hk. rewrite Hes.
    reflexivity.
  - intros e He; eapply walk_queued; eauto.
Qed.

Lemma walk_filters_visited_exports_witness :
  walk src_export_three ast_export_three (newMagicString src_export_three)
  = Ok (mkMagicString src_export_three [mkEdit 6 23 (txt "{A, C}")])
  /\ In exports_three (visited ast_export_three)
  /\ isKind NamedExports exports_three = true
  /\ queued src_export_three exports_three = [mkEdit 6 23 (txt "{A, C}")]
  /\ exists es,
       elements exports_three = Some es
       /\ queued src_export_three exports_three
          = [mkEdit (pos exports_three) (end_ exports_three)
               (txt "{"
                ++ join (txt ", ")
                     (map (getText src_export_three)
                        (filter (fun e => negb (isTypeOnly e)) es))
                ++ txt "}")]
       /\ (forall e, In e (queued src_export_three exports_three) ->
                     In e [mkEdit 6 23 (txt "{A, C}")]).
Proof.
  assert (Hw : walk src_export_three ast_export_three
                    (newMagicString src_export_three)
               = Ok (mkMagicString src_export_three
                       [mkEdit 6 23 (txt "{A, C}")]))
    by (vm_compute; reflexivity).
  assert (Hn : In exports_three (visited ast_export_three)) by in_list.
  assert (Hk : isKind NamedExports exports_three = true) by reflexivity.
  split; [exact Hw|]. split; [exact Hn|]. split; [exact Hk|].
  split; [reflexivity|].
  exact (walk_filters_visited_exports _ _ _ _ _ Hw Hn Hk).
Defined.

Lemma wellTyped_parameters n :
  wellTyped n = true -> isFunctionLike n = true ->
  exists ps, parameters n = Some ps.
Proof.
  unfold wellTyped. intros H Hk. rewrite Hk in H.
  destruct (parameters n) as [ps|]; [eauto|].
  rewrite andb_false_r in H. discriminate.
Qed.

(** An assertion that is the operand of another: in [x as unknown as T;]
    the walker replaces the outer range by the operand's text and returns,
    so the inner assertion is not replaced and its [as unknown] is in the
    rendered output. *)
Lemma inner_assertion_survives :
  In inner_cast (allNodes ast_double_cast)
  /\ isKind AsExpression inner_cast = true
  /\ exists code',
       walk src_double_cast ast_double_cast (newMagicString src_double_cast)
       = Ok code'
       /\ edits code' = [mkEdit 0 17 (txt "x as unknown")]
       /\ ~ In (mkEdit (pos inner_cast) (end_ inner_cast) (txt "x"))
              (edits code')
       /\ show (toString code') = "x as unknown;"%string.
Proof.
  split; [in_list|]. split; [reflexivity|].
  eexists. split; [vm_compute; reflexivity|].
  split; [reflexivity|]. split; [|reflexivity].
  simpl. intros [H|[]]. discriminate H.
Qed.

(** C6 (the code breaks the claim).  The replacement of a type assertion
    does not always preserve the expression.  The replaced range starts at
    the assertion's [pos], before its leading trivia, while the replacement
    text, [node.expression.getText()], starts at the operand's
    [getStart()], after it: the white space (or comment) before the
    assertion is lost.  For [return x as T;] the one queued edit replaces
    [[6, 13)], the text [ x as T] with its leading space, by [x], and the
    rendered text is [returnx;]: the returned expression [x] has become
    part of another identifier. *)
Theorem assertion_replacement_drops_leading_space :
  In return_cast (visited ast_return_cast)
  /\ isKind AsExpression return_cast = true
  /\ pos return_cast = 6 /\ getStart return_cast = 7
  /\ expression return_cast = Some (leaf Identifier 6 1 8)
  /\ getText src_return_cast (leaf Identifier 6 1 8) = txt "x"
  /\ exists code',
       walk src_return_cast ast_return_cast (newMagicString src_return_cast)
       = Ok code'
       /\ edits code' = [mkEdit 6 13 (txt "x")]
       /\ show (toString code') = "returnx;"%string.
Proof.
  split; [in_list|]. repeat (split; [reflexivity|]).
  eexists. split; [vm_compute; reflexivity|]. split; reflexivity.
Qed.

(** C5 as stated fails: in [(() => { let a: T = 1; }) as V;] the declarator
    [a: T = 1] carries a type annotation, the walker stops at the enclosing
    assertion, the range from the colon to the end of [T] is not deleted,
    and the annotation is in the rendered output. *)
Lemma declarator_in_cast_keeps_annotation :
  In decl_in_cast (allNodes ast_decl_in_cast)
  /\ isKind VariableDeclaration decl_in_cast = true
  /\ type_ decl_in_cast = Some (typeRef 15 1 17)
  /\ findKind ColonToken (getChildren decl_in_cast)
     = Some (leaf ColonToken 14 0 15)
  /\ exists code',
       walk src_decl_in_cast ast_decl_in_cast
            (newMagicString src_decl_in_cast) = Ok code'
       /\ ~ In (mkEdit 14 17 []) (edits code')
       /\ show (toString code') = "(() => { let a: T = 1; });"%string.
Proof.
  split; [in_list|]. split; [reflexivity|]. split; [reflexivity|].
  split; [reflexivity|].
  eexists. split; [vm_compute; reflexivity|]. split; [|reflexivity].
  simpl. intros [H|[]]. discriminate H.
Qed.

(** C5 (amended).  For every variable declarator with a type annotation that
    the walker visits (one not nested in a node replaced whole), the walk
    deletes the range from the [pos] of the declarator's colon token to the
    end of the type expression, and queues nothing else at that node: the
    name, the initializer and the punctuation around them are outside the
    range; [const a: number = 123;] renders as [const a = 123;]. *)
Theorem walk_erases_visited_declarator_annotation
  src root code code' n ty colonToken :
  walk src root code = Ok code' ->
  In n (visited root) ->
  isKind VariableDeclaration n = true ->
  type_ n = Some ty ->
  findKind ColonToken (getChildren n) = Some colonToken ->
  queued src n = [mkEdit (pos colonToken) (end_ ty) []]
  /\ In (mkEdit (pos colonToken) (end_ ty) []) (edits code')
  /\ rendered src_const_a ast_const_a = Ok "const a = 123;"%string.
Proof.
  intros Hw Hn Hk Hty Hc.
  assert (Hq : queued src n = [mkEdit (pos colonToken) (end_ ty) []]).
  { unfold queued. rewrite visit_VariableDeclaration by exact Hk.
    rewrite (eraseAnnotation_queues _ _ _ _ Hty Hc). reflexivity. }
  split; [exact Hq|]. split; [|reflexivity].
  eapply walk_queued; eauto. rewrite Hq. simpl; auto.
Qed.

Lemma walk_erases_visited_declarator_annotation_witness :
  walk src_const_a ast_const_a (newMagicString src_const_a)
  = Ok (mkMagicString src_const_a [mkEdit 7 15 []])
  /\ In decl_const_a (visited ast_const_a)
  /\ isKind VariableDeclaration decl_const_a = true
  /\ type_ decl_const_a = Some (leaf NumberKeyword 8 1 15)
  /\ findKind ColonToken (getChildren decl_const_a)
     = Some (leaf ColonToken 7 0 8)
  /\ queued src_const_a decl_const_a = [mkEdit 7 15 []]
  /\ In (mkEdit 7 15 []) [mkEdit 7 15 []]
  /\ rendered src_const_a ast_const_a = Ok "const a = 123;"%string.
Proof.
  assert (Hw : walk src_const_a ast_const_a (newMagicString src_const_a)
               = Ok (mkMagicString src_const_a [mkEdit 7 15 []]))
    by (vm_compute; reflexivity).
  assert (Hn : In decl_const_a (visited ast_const_a)) by in_list.
  assert (Hk : isKind VariableDeclaration decl_const_a = true)
    by reflexivity.
  assert (Hty : type_ decl_const_a = Some (leaf NumberKeyword 8 1 15))
    by reflexivity.
  assert (Hc : findKind ColonToken (getChildren decl_const_a)
               = Some (leaf ColonToken 7 0 8)) by reflexivity.
  split; [exact Hw|]. split; [exact Hn|]. split; [exact Hk|].
  split; [exact Hty|]. split; [exact Hc|].
  exact (walk_erases_visited_declarator_annotation _ _ _ _ _ _ _
           Hw Hn Hk Hty Hc).
Defined.

Lemma eraseTypeParameters_queues n code ltToken gtToken :
  hasTypeParameters n = true ->
  findKind LessThanToken (getChildren n) = Some ltToken ->
  findKind GreaterThanToken (getChildren n) = Some gtToken ->
  edits (eraseTypeParameters n code)
  = edits code ++ [mkEdit (pos ltToken) (end_ gtToken) []].
Proof.
  unfold hasTypeParameters, eraseTypeParameters. intros Ht Hl Hg.
  destruct (typeParameters n) as [[|t ts]|]; try discriminate.
  rewrite Hl, Hg. reflexivity.
Qed.

Lemma queued_functionLike src n ps :
  isFunctionLike n = true ->
  parameters n = Some ps ->
  queued src n
  = edits (fold_left (fun c p => eraseAnnotation p c) ps
             (eraseAnnotation n
                (eraseTypeParameters n (newMagicString [])))).
Proof.
  intros Hf Hps. unfold queued. rewrite visit_functionLike by exact Hf.
  unfold eraseFunctionLike. rewrite Hps. reflexivity.
Qed.

(** C4 as stated fails: in [class A { m(x: number): void {} }] the method
    has a return-type annotation and a typed parameter; no rule of the
    walker names methods, no edit is queued, and the rendered text is the
    input with its annotations. *)
Lemma method_annotations_survive :
  In method_m (allNodes ast_method)
  /\ kind method_m = MethodDeclaration
  /\ type_ method_m = Some (leaf VoidKeyword 23 1 28)
  /\ exists code',
       walk src_method ast_method (newMagicString src_method) = Ok code'
       /\ edits code' = []
       /\ toString code' = src_method.
Proof.
  split; [in_list|]. split; [reflexivity|]. split; [reflexivity|].
  eexists. split; [vm_compute; reflexivity|]. split; reflexivity.
Qed.

(** C4 (amended).  For every function declaration, function expression and
    arrow function the walker visits (methods are not classified, and a
    function nested in a node replaced whole is not visited): its
    type-parameter list is deleted from the [pos] of its first [<] token
    child to the end of its first [>] token child; its return-type
    annotation from the [pos] of its first colon token child, the colon after
    the parameter list, to the end of the declared return type; and each
    parameter's annotation from the [pos] of that parameter's colon token to
    the end of its type; [function foo<T>(a: number): string { return
    String(a); }] renders as [function foo(a) { return String(a); }]. *)
Theorem walk_erases_visited_function_types src root code code' n :
  walk src root code = Ok code' ->
  In n (visited root) ->
  isFunctionLike n = true ->
  (forall ltToken gtToken,
      hasTypeParameters n = true ->
      findKind LessThanToken (getChildren n) = Some ltToken ->
      findKind GreaterThanToken (getChildren n) = Some gtToken ->
      In (mkEdit (pos ltToken) (end_ gtToken) []) (edits code'))
  /\ (forall ty colonToken,
         type_ n = Some ty ->
         findKind ColonToken (getChildren n) = Some colonToken ->
         In (mkEdit (pos colonToken) (end_ ty) []) (edits code'))
  /\ (exists ps,
         parameters n = Some ps
         /\ forall p ty colonToken,
              In p ps ->
              type_ p = Some ty ->
              findKind ColonToken (getChildren p) = Some colonToken ->
              In (mkEdit (pos colonToken) (end_ ty) []) (edits code'))
  /\ rendered src_function_foo ast_function_foo
     = Ok "function foo(a) { return String(a); }"%string.
Proof.
  intros Hw Hn Hf.
  destruct (wellTyped_parameters n (walk_ok_wellTyped _ _ _ _ Hw n Hn) Hf)
    as [ps Hps].
  pose proof (queued_functionLike src n ps Hf Hps) as Hq.
  assert (Hin : forall e, In e (queued src n) -> In e (edits code'))
    by (intros e He; eapply walk_queued; eauto).
  split; [|split; [|split; [|reflexivity]]].
  - intros l g Ht Hl Hg. apply Hin. rewrite Hq.
    apply eraseParameters_keeps, eraseAnnotation_keeps.
    rewrite (eraseTypeParameters_queues _ _ _ _ Ht Hl Hg).
    apply in_or_app. right. simpl; auto.
  - intros ty c Hty Hc. apply Hin. rewrite Hq.
    apply eraseParameters_keeps.
    rewrite (eraseAnnotation_queues _ _ _ _ Hty Hc).
    apply in_or_app. right. simpl; auto.
  - exists ps. split; [exact Hps|].
    intros p ty c Hp Hty Hc. apply Hin. rewrite Hq.
    eapply eraseParameters_queues; eauto.
Qed.

Lemma walk_erases_visited_function_types_witness :
  walk src_function_foo ast_function_foo (newMagicString src_function_foo)
  = Ok (mkMagicString src_function_foo
          [mkEdit 12 15 []; mkEdit 26 34 []; mkEdit 17 25 []])
  /\ In function_foo (visited ast_function_foo)
  /\ isFunctionLike function_foo = true
  /\ hasTypeParameters function_foo = true
  /\ findKind LessThanToken (getChildren function_foo)
     = Some (leaf LessThanToken 12 0 13)
  /\ findKind GreaterThanToken (getChildren function_foo)
     = Some (leaf GreaterThanToken 14 0 15)
  /\ type_ function_foo = Some (leaf StringKeyword 27 1 34)
  /\ findKind ColonToken (getChildren function_foo)
     = Some (leaf ColonToken 26 0 27)
  /\ parameters function_foo = Some [param_a]
  /\ type_ param_a = Some (leaf NumberKeyword 18 1 25)
  /\ findKind ColonToken (getChildren param_a)
     = Some (leaf ColonToken 17 0 18)
  /\ In (mkEdit 12 15 [])
        [mkEdit 12 15 []; mkEdit 26 34 []; mkEdit 17 25 []]
  /\ In (mkEdit 26 34 [])
        [mkEdit 12 15 []; mkEdit 26 34 []; mkEdit 17 25 []]
  /\ In (mkEdit 17 25 [])
        [mkEdit 12 15 []; mkEdit 26 34 []; mkEdit 17 25 []].
Proof.
  assert (Hw : walk src_function_foo ast_function_foo
                    (newMagicString src_function_foo)
               = Ok (mkMagicString src_function_foo
                       [mkEdit 12 15 []; mkEdit 26 34 []; mkEdit 17 25 []]))
    by (vm_compute; reflexivity).
  assert (Hn : In function_foo (visited ast_function_foo)) by in_list.
  assert (Hf : isFunctionLike function_foo = true) by reflexivity.
  destruct (walk_erases_visited_function_types _ _ _ _ _ Hw Hn Hf)
    as [Htp [Hret [[ps [Hps Hpar]] _]]].
  injection Hps as <-.
  repeat (split; [first [exact Hw | exact Hn | reflexivity]|]).
  split; [|split].
  - exact (Htp _ _ eq_refl eq_refl eq_refl).
  - exact (Hret _ _ eq_refl eq_refl).
  - exact (Hpar param_a _ _ (or_introl eq_refl) eq_refl eq_refl).
Defined.

(** C7 as stated fails: in [namespace N { <a b:c={1} />; }] the attribute
    name [b:c] is in the input, the walker deletes the namespace
    declaration whole, and the rendered output is empty. *)
Lemma attribute_in_namespace_not_retained :
  In attr_b_c (allNodes ast_jsx_in_namespace)
  /\ kind attr_b_c = JsxNamespacedName
  /\ getText src_jsx_in_namespace attr_b_c = txt "b:c"
  /\ exists code',
       walk src_jsx_in_namespace ast_jsx_in_namespace
            (newMagicString src_jsx_in_namespace) = Ok code'
       /\ edits code' = [mkEdit 0 30 []]
       /\ toString code' = [].
Proof.
  split; [in_list|]. split; [reflexivity|]. split; [reflexivity|].
  eexists. split; [vm_compute; reflexivity|]. split; reflexivity.
Qed.

(** C7 (amended).  Every edit the walk queues comes from a rule applied at a
    visited node: the replacement of the whole range of a consumed node, the
    deletion from a [ColonToken] child of a declarator, function or
    parameter with a declared type to the end of that type, or the deletion
    of a function's type-parameter brackets; no edit is found by reading the
    text.  A markup attribute name whose range is outside the queued ranges
    (it is not inside a node replaced whole) is in the rendered output,
    colon included, as written: [<div on:click={() => {}}></div>] renders
    unchanged. *)
Theorem walk_edits_come_from_rules src root code' :
  walk src root (newMagicString src) = Ok code' ->
  (forall e, In e (edits code') ->
             exists n, In n (visited root) /\ ruleEdit n e)
  /\ (forall name,
         getStart name <= end_ name <= List.length src ->
         (forall e, In e (edits code') ->
                    outside e (getStart name) (end_ name)) ->
         exists X Y, toString code' = X ++ getText src name ++ Y)
  /\ rendered src_jsx ast_jsx = Ok "<div on:click={() => {}}></div>"%string.
Proof.
  intros Hw. split; [|split; [|reflexivity]].
  - intros e He. eapply walk_ruleEdit; eauto.
  - intros name Hr Hout.
    destruct (walk_edits _ _ _ _ Hw) as [Ho _]. simpl in Ho.
    unfold getText. rewrite <- Ho in Hr |- *.
    apply toString_outside; assumption.
Qed.

Lemma walk_edits_come_from_rules_witness :
  walk src_jsx ast_jsx (newMagicString src_jsx) = Ok (newMagicString src_jsx)
  /\ In attr_on_click (allNodes ast_jsx)
  /\ getText src_jsx attr_on_click = txt "on:click"
  /\ exists X Y,
       toString (newMagicString src_jsx) = X ++ txt "on:click" ++ Y.
Proof.
  assert (Hw : walk src_jsx ast_jsx (newMagicString src_jsx)
               = Ok (newMagicString src_jsx)) by (vm_compute; reflexivity).
  split; [exact Hw|]. split; [in_list|]. split; [reflexivity|].
  destruct (walk_edits_come_from_rules _ _ _ Hw) as [_ [Hkeep _]].
  apply (Hkeep attr_on_click).
  - cbv. split; repeat constructor.
  - intros e [].
Defined.

(** ** Unrecognized input *)

Lemma eraseAnnotation_untyped n code :
  type_ n = None -> eraseAnnotation n code = code.
Proof. intros H. unfold eraseAnnotation. rewrite H. reflexivity. Qed.

Lemma isSome_false {A : Type} (o : option A) : isSome o = false -> o = None.
Proof. destruct o; [discriminate | reflexivity]. Qed.

Lemma eraseParameters_untyped ps : forall code,
  existsb (fun p => isSome (type_ p)) ps = false ->
  fold_left (fun c p => eraseAnnotation p c) ps code = code.
Proof.
  induction ps as [|p ps IH]; intros code H; simpl; [reflexivity|].
  simpl in H. apply orb_false_iff in H as [Hp Hps].
  rewrite eraseAnnotation_untyped by (apply isSome_false, Hp).
  apply IH, Hps.
Qed.

(** An unrecognized node queues nothing. *)
Lemma visit_unrecognized src n code :
  recognized n = false -> wellTyped n = true -> visit src n code = Ok code.
Proof.
  intros Hr Hwt. unfold recognized in Hr.
  apply orb_false_iff in Hr as [Hr Hfun].
  apply orb_false_iff in Hr as [Hc Hvar].
  destruct (isFunctionLike n) eqn:Hf.
  - rewrite visit_functionLike by exact Hf. unfold eraseFunctionLike.
    destruct (wellTyped_parameters n Hwt Hf) as [ps Hps]. rewrite Hps in *.
    simpl in Hfun. apply orb_false_iff in Hfun as [Hfun Hpar].
    apply orb_false_iff in Hfun as [Htp Hty].
    rewrite eraseParameters_untyped by exact Hpar.
    rewrite eraseAnnotation_untyped by (apply isSome_false, Hty).
    unfold eraseTypeParameters. unfold hasTypeParameters in Htp.
    destruct (typeParameters n) as [[|t ts]|]; try reflexivity; discriminate.
  - destruct (isKind VariableDeclaration n) eqn:Hv.
    + rewrite visit_VariableDeclaration by exact Hv.
      simpl in Hvar.
      rewrite eraseAnnotation_untyped by (apply isSome_false, Hvar).
      reflexivity.
    + apply visit_plain; assumption.
Qed.

Lemma recognized_not_consumed n : recognized n = false -> consumed n = false.
Proof.
  unfold recognized. intros H.
  apply orb_false_iff in H as [H _]. apply orb_false_iff in H as [H _].
  exact H.
Qed.

Lemma walk_unrecognized src : forall root code,
  (forall n, In n (visited root) ->
             recognized n = false /\ wellTyped n = true) ->
  walk src root code = Ok code.
Proof.
  induction root as [r IHr] using Node_children_ind. intros code.
  rewrite walk_eq, visited_eq. intros H.
  destruct (H r (or_introl eq_refl)) as [Hr Hwt].
  rewrite (visit_unrecognized src r code Hr Hwt). simpl.
  rewrite (recognized_not_consumed r Hr) in *.
  assert (Hl : forall n, In n (flat_map visited (forEachChild r)) ->
                         recognized n = false /\ wellTyped n = true).
  { intros n Hn. apply H. right. exact Hn. }
  clear H. induction IHr as [|m l Hm _ IHl]; simpl; [reflexivity|].
  rewrite Hm.
  - simpl. apply IHl. intros n Hn. apply Hl. simpl. apply in_or_app. auto.
  - intros n Hn. apply Hl. simpl. apply in_or_app. auto.
Qed.

(** C9 as stated fails: [import { a /* c */ } from 'm';] has no type-only
    syntax, yet the walker re-serialises its specifier list: the rendered
    text is [import{a} from 'm';], without the comment; it differs from the
    input also after [normalize] and after the removal of all white
    space. *)
Lemma import_list_comment_lost :
  forallb (fun n => negb (typeOnlySyntax n)) (allNodes ast_import_comment)
  = true
  /\ exists code',
       walk src_import_comment ast_import_comment
            (newMagicString src_import_comment) = Ok code'
       /\ show (toString code') = "import{a} from 'm';"%string
       /\ toString code' <> src_import_comment
       /\ normalize (toString code') <> normalize src_import_comment
       /\ filter (fun c => negb (isWhiteSpace c)) (toString code')
          <> filter (fun c => negb (isWhiteSpace c)) src_import_comment.
Proof.
  split; [reflexivity|].
  eexists. split; [vm_compute; reflexivity|].
  split; [reflexivity|].
  split; [|split]; vm_compute; intros H; discriminate H.
Qed.

(** ** [normalize] *)

Lemma trimStart_snoc_other c : forall a,
  isWhiteSpace c = false -> trimStart (a ++ [c]) = trimStart a ++ [c].
Proof.
  intros a Hc. induction a as [|x a IH]; simpl.
  - rewrite Hc. reflexivity.
  - destruct (isWhiteSpace x); [exact IH | reflexivity].
Qed.

Lemma trimStart_snoc_space c : forall a,
  isWhiteSpace c = true ->
  trimStart (a ++ [c])
  = match trimStart a with [] => [] | t => t ++ [c] end.
Proof.
  intros a Hc. induction a as [|x a IH]; simpl.
  - rewrite Hc. reflexivity.
  - destruct (isWhiteSpace x); [exact IH | reflexivity].
Qed.

Lemma trimEnd_cons_other c y :
  isWhiteSpace c = false -> trimEnd (c :: y) = c :: trimEnd y.
Proof.
  intros Hc. unfold trimEnd. simpl rev.
  rewrite trimStart_snoc_other by exact Hc.
  rewrite rev_app_distr. reflexivity.
Qed.

Lemma trimEnd_cons_space c y :
  isWhiteSpace c = true ->
  trimEnd (c :: y) = match trimEnd y with [] => [] | t => c :: t end.
Proof.
  intros Hc. unfold trimEnd. simpl rev.
  rewrite trimStart_snoc_space by exact Hc.
  destruct (trimStart (rev y)) as [|a t]; [reflexivity|].
  rewrite rev_app_distr. simpl.
  destruct (rev t ++ [a]) as [|x l] eqn:E; [|reflexivity].
  apply app_eq_nil in E. destruct E as [_ E]. discriminate E.
Qed.

Lemma collapse_true_head s :
  match collapse true s with
  | [] => True
  | c :: _ => isWhiteSpace c = false
  end.
Proof.
  induction s as [|c s IH]; simpl; [exact I|].
  destruct (isWhiteSpace c) eqn:Hc; [exact IH | exact Hc].
Qed.

Lemma trimStart_collapse s : trimStart (collapse false s) = collapse true s.
Proof.
  assert (H : forall t, trimStart (collapse true t) = collapse true t).
  { intros t. pose proof (collapse_true_head t) as Hh.
    destruct (collapse true t) as [|c l]; [reflexivity|].
    simpl. rewrite Hh. reflexivity. }
  destruct s as [|c s]; [reflexivity|]. simpl.
  destruct (isWhiteSpace c) eqn:Hc; simpl.
  - apply H.
  - rewrite Hc. reflexivity.
Qed.

Lemma normalize_trimEnd s : normalize s = trimEnd (collapse true s).
Proof.
  unfold normalize, trim, trimEnd. rewrite trimStart_collapse. reflexivity.
Qed.

Lemma words_head c r :
  isWhiteSpace c = false -> exists w l, words (c :: r) = (c :: w) :: l.
Proof.
  intros Hc. simpl. rewrite Hc.
  destruct r as [|d r']; [exists [], []; reflexivity|].
  destruct (isWhiteSpace d); [eexists _, _; reflexivity|].
  destruct (words (d :: r')); eexists _, _; reflexivity.
Qed.

Lemma words_isWord : forall s, Forall (fun w => isWord w = true) (words s).
Proof.
  induction s as [|c r IH]; [constructor|].
  simpl. destruct (isWhiteSpace c) eqn:Hc; [exact IH|].
  assert (Hw : isWord [c] = true) by (simpl; rewrite Hc; reflexivity).
  destruct r as [|d r']; [repeat constructor; exact Hw|].
  destruct (isWhiteSpace d) eqn:Hd; [constructor; [exact Hw | exact IH]|].
  destruct (words (d :: r')) as [|w l]; [repeat constructor; exact Hw|].
  inversion IH as [|? ? Hw' Hl]; subst. constructor; [|exact Hl].
  destruct w as [|x w]; [discriminate Hw'|].
  simpl in Hw' |- *. rewrite Hc. exact Hw'.
Qed.

Lemma join_cons (sep x : text) (l : list text) :
  join sep (x :: l) = match l with [] => x | _ => x ++ sep ++ join sep l end.
Proof. destruct l; reflexivity. Qed.

Lemma join_nil_inv (sep : text) (l : list text) :
  Forall (fun w => isWord w = true) l -> join sep l = [] -> l = [].
Proof.
  intros Hl E. destruct l as [|w l]; [reflexivity|].
  inversion Hl as [|? ? Hw _]; subst.
  destruct w as [|c w]; [discriminate Hw|].
  rewrite join_cons in E. destruct l; discriminate E.
Qed.

Lemma trimEnd_collapse_words : forall s,
  trimEnd (collapse true s) = join space (words s).
Proof.
  induction s as [|c r IH]; [reflexivity|].
  simpl collapse. destruct (isWhiteSpace c) eqn:Hc.
  - simpl words. rewrite Hc. exact IH.
  - rewrite trimEnd_cons_other by exact Hc.
    destruct r as [|d r'].
    + simpl. rewrite Hc. reflexivity.
    + destruct (isWhiteSpace d) eqn:Hd.
      * assert (E : collapse false (d :: r') = " "%char :: collapse true (d :: r'))
          by (simpl; rewrite Hd; reflexivity).
        rewrite E, trimEnd_cons_space by reflexivity. rewrite IH.
        assert (Ew : words (c :: d :: r') = [c] :: words (d :: r'))
          by (simpl; rewrite Hc, Hd; reflexivity).
        rewrite Ew, join_cons.
        destruct (join space (words (d :: r'))) as [|x l] eqn:Ej.
        -- rewrite (join_nil_inv space _ (words_isWord (d :: r')) Ej).
           reflexivity.
        -- destruct (words (d :: r')); [discriminate Ej | reflexivity].
      * assert (E : collapse false (d :: r') = collapse true (d :: r'))
          by (simpl; rewrite Hd; reflexivity).
        rewrite E, IH.
        destruct (words_head d r' Hd) as [w [l Ew]].
        assert (Ec : words (c :: d :: r') = (c :: d :: w) :: l).
        { change (words (c :: d :: r'))
            with (if isWhiteSpace c then words (d :: r')
                  else if isWhiteSpace d then [c] :: words (d :: r')
                       else match words (d :: r') with
                            | w :: ws => (c :: w) :: ws
                            | [] => [[c]]
                            end).
          rewrite Hc, Hd, Ew. reflexivity. }
        rewrite Ec, Ew, !join_cons. destruct l; reflexivity.
Qed.

Lemma normalize_words s : normalize s = join space (words s).
Proof. rewrite normalize_trimEnd. apply trimEnd_collapse_words. Qed.

Lemma words_word_then : forall w t,
  isWord w = true ->
  words (w ++ t)
  = match t with
    | [] => [w]
    | d :: _ =>
        if isWhiteSpace d then w :: words t
        else match words t with
             | w' :: l => (w ++ w') :: l
             | [] => [w]
             end
    end.
Proof.
  induction w as [|c w IH]; intros t Hw; [discriminate Hw|].
  simpl in Hw. apply andb_true_iff in Hw as [Hc Hrest].
  apply negb_true_iff in Hc.
  destruct w as [|d w].
  - simpl. rewrite Hc. destruct t as [|x t]; reflexivity.
  - assert (Hw' : isWord (d :: w) = true) by exact Hrest.
    assert (Hd : isWhiteSpace d = false).
    { simpl in Hrest. apply andb_true_iff in Hrest as [Hd _].
      apply negb_true_iff, Hd. }
    specialize (IH t Hw').
    change (words ((c :: d :: w) ++ t))
      with (if isWhiteSpace c then words ((d :: w) ++ t)
            else if isWhiteSpace d then [c] :: words ((d :: w) ++ t)
                 else match words ((d :: w) ++ t) with
                      | w0 :: ws => (c :: w0) :: ws
                      | [] => [[c]]
                      end).
    rewrite Hc, Hd, IH.
    destruct t as [|x t]; [reflexivity|].
    destruct (isWhiteSpace x); [reflexivity|].
    destruct (words (x :: t)); reflexivity.
Qed.

Lemma words_join : forall l,
  Forall (fun w => isWord w = true) l -> words (join space l) = l.
Proof.
  induction l as [|w l IH]; intros Hl; [reflexivity|].
  inversion Hl as [|? ? Hw Hl']; subst.
  rewrite join_cons. destruct l as [|w' l'].
  - rewrite <- (app_nil_r w) at 1. rewrite words_word_then by exact Hw.
    reflexivity.
  - rewrite words_word_then by exact Hw.
    change (space ++ join space (w' :: l'))
      with (" "%char :: join space (w' :: l')).
    cbv iota. change (isWhiteSpace " "%char) with true. cbv iota.
    f_equal. change (words (" "%char :: join space (w' :: l')))
      with (words (join space (w' :: l'))).
    apply IH, Hl'.
Qed.

Lemma words_blank : forall s, words s = [] <-> blank s = true.
Proof.
  induction s as [|c r IH]; [split; reflexivity|].
  simpl. destruct (isWhiteSpace c) eqn:Hc; [exact IH|].
  split; [|discriminate].
  destruct r as [|d r']; [discriminate|].
  destruct (isWhiteSpace d); [discriminate|].
  destruct (words (d :: r')); discriminate.
Qed.

Lemma words_skip_blank : forall ws t, blank ws = true -> words (ws ++ t) = words t.
Proof.
  induction ws as [|c ws IH]; intros t H; [reflexivity|].
  simpl in H. apply andb_true_iff in H as [Hc Hws].
  simpl. rewrite Hc. apply IH, Hws.
Qed.

Lemma words_split : forall a ws b,
  blank ws = true -> ws <> [] -> words (a ++ ws ++ b) = words a ++ words b.
Proof.
  intros a ws b Hws Hne.
  assert (Hhead : exists d rest, ws ++ b = d :: rest /\ isWhiteSpace d = true).
  { destruct ws as [|d ws]; [contradiction|].
    simpl in Hws. apply andb_true_iff in Hws as [Hd _].
    exists d, (ws ++ b). auto. }
  induction a as [|c r IH]; [simpl; apply words_skip_blank, Hws|].
  destruct (isWhiteSpace c) eqn:Hc.
  - simpl. rewrite Hc. exact IH.
  - destruct r as [|d r'].
    + destruct Hhead as [d [rest [E Hd]]].
      simpl app. rewrite E.
      assert (Ew : words (c :: d :: rest) = [c] :: words (d :: rest))
        by (simpl; rewrite Hc, Hd; reflexivity).
      rewrite Ew, <- E, (words_skip_blank ws b Hws).
      simpl. rewrite Hc. reflexivity.
    + change (words ((c :: d :: r') ++ ws ++ b))
        with (if isWhiteSpace c then words ((d :: r') ++ ws ++ b)
              else if isWhiteSpace d then [c] :: words ((d :: r') ++ ws ++ b)
                   else match words ((d :: r') ++ ws ++ b) with
                        | w0 :: l => (c :: w0) :: l
                        | [] => [[c]]
                        end).
      change (words (c :: d :: r'))
        with (if isWhiteSpace c then words (d :: r')
              else if isWhiteSpace d then [c] :: words (d :: r')
                   else match words (d :: r') with
                        | w0 :: l => (c :: w0) :: l
                        | [] => [[c]]
                        end).
      rewrite Hc, IH. destruct (isWhiteSpace d) eqn:Hd; [reflexivity|].
      destruct (words_head d r' Hd) as [w [l ->]]. reflexivity.
Qed.

Lemma concat_words : forall s, List.concat (words s) = filter otherThanSpace s.
Proof.
  unfold otherThanSpace.
  induction s as [|c r IH]; [reflexivity|].
  simpl. destruct (isWhiteSpace c) eqn:Hc; simpl; [exact IH|].
  destruct r as [|d r']; [reflexivity|].
  rewrite <- IH. destruct (isWhiteSpace d) eqn:Hd; [reflexivity|].
  destruct (words_head d r' Hd) as [w [l ->]]. reflexivity.
Qed.

Lemma filter_word w : isWord w = true -> filter otherThanSpace w = w.
Proof.
  unfold otherThanSpace. intros Hw.
  assert (H : forallb (fun c => negb (isWhiteSpace c)) w = true)
    by (destruct w; [discriminate Hw | exact Hw]).
  clear Hw. induction w as [|c w IH]; [reflexivity|].
  simpl in H |- *. apply andb_true_iff in H as [Hc Hw].
  rewrite Hc, IH by exact Hw. reflexivity.
Qed.

Lemma filter_join : forall l,
  Forall (fun w => isWord w = true) l ->
  filter otherThanSpace (join space l) = List.concat l.
Proof.
  induction l as [|w l IH]; intros Hl; [reflexivity|].
  inversion Hl as [|? ? Hw Hl']; subst.
  rewrite join_cons. destruct l as [|w' l'].
  - simpl. rewrite app_nil_r. apply filter_word, Hw.
  - rewrite !filter_app, filter_word, IH by assumption. reflexivity.
Qed.

Lemma normalFrom_word : forall w b r,
  isWord w = true -> normalFrom b (w ++ r) = normalFrom false r.
Proof.
  induction w as [|c w IH]; intros b r Hw; [discriminate Hw|].
  simpl in Hw. apply andb_true_iff in Hw as [Hc Hrest].
  apply negb_true_iff in Hc. simpl. rewrite Hc.
  destruct w as [|d w]; [reflexivity|]. apply IH. exact Hrest.
Qed.

Lemma normalFrom_join : forall l,
  Forall (fun w => isWord w = true) l -> l <> [] ->
  normalFrom true (join space l) = true.
Proof.
  induction l as [|w l IH]; intros Hl Hne; [contradiction|].
  inversion Hl as [|? ? Hw Hl']; subst.
  rewrite join_cons. destruct l as [|w' l'].
  - rewrite <- (app_nil_r w). rewrite normalFrom_word by exact Hw. reflexivity.
  - rewrite normalFrom_word by exact Hw.
    change (normalFrom false (space ++ join space (w' :: l')))
      with (normalFrom true (join space (w' :: l'))).
    apply IH; [exact Hl' | discriminate].
Qed.

Lemma normalFrom_collapse : forall t b,
  normalFrom b t = true -> collapse b t = t.
Proof.
  induction t as [|c r IH]; intros b H; [reflexivity|].
  simpl in H |- *. destruct (isWhiteSpace c) eqn:Hc.
  - apply andb_true_iff in H as [H Hr]. apply andb_true_iff in H as [Hb Hsp].
    apply negb_true_iff in Hb. apply Ascii.eqb_eq in Hsp. subst b c.
    rewrite (IH true Hr). reflexivity.
  - rewrite (IH false H). reflexivity.
Qed.

Lemma normalFrom_trimEnd : forall t b, normalFrom b t = true -> trimEnd t = t.
Proof.
  induction t as [|c r IH]; intros b H; [reflexivity|].
  simpl in H. destruct (isWhiteSpace c) eqn:Hc.
  - apply andb_true_iff in H as [_ Hr].
    rewrite trimEnd_cons_space by exact Hc. rewrite (IH true Hr).
    destruct r; [discriminate Hr | reflexivity].
  - rewrite trimEnd_cons_other by exact Hc. rewrite (IH false H). reflexivity.
Qed.

(** ** Properties of [normalize] *)

(** X1.  [normalize] returns the words of the text, its maximal runs of
    characters other than white space, joined by single spaces; two texts
    have the same normal form exactly when they have the same words. *)
Theorem normalize_compares_words (s t : text) :
  normalize s = join space (words s)
  /\ (normalize s = normalize t <-> words s = words t).
Proof.
  split; [apply normalize_words|].
  rewrite !normalize_words. split; [|intros ->; reflexivity].
  intros H.
  rewrite <- (words_join (words s) (words_isWord s)).
  rewrite <- (words_join (words t) (words_isWord t)).
  rewrite H. reflexivity.
Qed.

(** X2.  [normalize] is idempotent. *)
Theorem normalize_idempotent (s : text) : normalize (normalize s) = normalize s.
Proof.
  rewrite (normalize_words (normalize s)), (normalize_words s).
  rewrite words_join by apply words_isWord. reflexivity.
Qed.

(** X3.  The result of [normalize] is in normal form: it neither starts nor
    ends with white space, and each white-space character in it is one space
    between two other characters; the texts [normalize] leaves unchanged are
    exactly the texts in normal form. *)
Theorem normalize_normal_form (s : text) :
  normal (normalize s) = true
  /\ (normalize s = s <-> normal s = true).
Proof.
  assert (Hn : forall t, normal (normalize t) = true).
  { intros t. rewrite normalize_words.
    destruct (words t) as [|w l] eqn:E; [reflexivity|].
    pose proof (words_isWord t) as Hw. rewrite E in Hw.
    pose proof (normalFrom_join (w :: l) Hw ltac:(discriminate)) as H.
    unfold normal. destruct (join space (w :: l)); [reflexivity | exact H]. }
  split; [apply Hn|]. split.
  - intros E. rewrite <- E. apply Hn.
  - intros H. destruct s as [|c r]; [reflexivity|].
    unfold normal in H. rewrite normalize_trimEnd.
    rewrite (normalFrom_collapse _ _ H). apply (normalFrom_trimEnd _ _ H).
Qed.

(** X4.  [normalize] returns the empty text exactly on the blank texts, the
    empty text among them. *)
Theorem normalize_empty_iff_blank (s : text) :
  normalize s = [] <-> blank s = true.
Proof.
  rewrite normalize_words, <- words_blank. split.
  - apply join_nil_inv, words_isWord.
  - intros ->. reflexivity.
Qed.

(** X5.  [normalize] does not see how much white space separates two parts
    of a text, nor white space at the ends: a run of white space can be
    exchanged for any other, and blank texts around a text can be dropped. *)
Theorem normalize_ignores_white_space (a b ws1 ws2 l r : text) :
  blank ws1 = true -> ws1 <> [] ->
  blank ws2 = true -> ws2 <> [] ->
  blank l = true -> blank r = true ->
  normalize (a ++ ws1 ++ b) = normalize (a ++ ws2 ++ b)
  /\ normalize (l ++ a ++ r) = normalize a.
Proof.
  intros H1 N1 H2 N2 Hl Hr. rewrite !normalize_words. split.
  - rewrite !words_split by assumption. reflexivity.
  - rewrite (words_skip_blank l _ Hl).
    destruct r as [|c r]; [rewrite app_nil_r; reflexivity|].
    rewrite <- (app_nil_r (c :: r)).
    rewrite (words_split a (c :: r) [] Hr) by discriminate.
    rewrite app_nil_r. reflexivity.
Qed.

Lemma normalize_ignores_white_space_witness :
  blank (txt "  ") = true /\ txt "  " <> []
  /\ blank (txt " ") = true /\ txt " " <> []
  /\ normalize (txt "a" ++ txt "  " ++ txt "b")
     = normalize (txt "a" ++ txt " " ++ txt "b")
  /\ normalize (txt " " ++ txt "a" ++ txt "  ") = normalize (txt "a").
Proof.
  split; [reflexivity|]. split; [discriminate|].
  split; [reflexivity|]. split; [discriminate|].
  apply (normalize_ignores_white_space
           (txt "a") (txt "b") (txt "  ") (txt " ") (txt " ") (txt "  "));
    first [reflexivity | discriminate].
Defined.

(** X6.  [normalize] keeps every character other than white space, in
    order. *)
Theorem normalize_keeps_other_characters (s : text) :
  filter otherThanSpace (normalize s) = filter otherThanSpace s.
Proof.
  rewrite normalize_words, filter_join by apply words_isWord.
  apply concat_words.
Qed.

(** ** More on the walk *)

Lemma queued_deletion src n e :
  insertsText n = false -> In e (queued src n) -> e_content e = [].
Proof.
  unfold insertsText. intros Hi He.
  apply orb_false_iff in Hi as [Hi Ha]. apply orb_false_iff in Hi as [Hi Hx].
  destruct (consumed n) eqn:Hc.
  - destruct (consumed_cases _ Hc) as [Hd|[H|[H|H]]]; try congruence.
    rewrite queued_deletesWhole in He by exact Hd.
    destruct He as [<-|[]]. reflexivity.
  - destruct (queued_ruleEdit _ _ _ He) as [[H _]|[[_ H]|[_ [H|[H|H]]]]].
    + congruence.
    + destruct H as [ty [c [_ [_ [_ ->]]]]]. reflexivity.
    + destruct H as [ty [c [_ [_ [_ ->]]]]]. reflexivity.
    + destruct H as [ps [p [_ [_ [ty [c [_ [_ [_ ->]]]]]]]]]. reflexivity.
    + destruct H as [l [g [_ [_ [_ [_ [_ ->]]]]]]]. reflexivity.
Qed.

Lemma inserted_deletions es p :
  (forall e, In e es -> e_content e = []) -> inserted es p = [].
Proof.
  unfold inserted. induction es as [|e es IH]; intros H; [reflexivity|].
  simpl. rewrite IH by (intros e' He'; apply H; simpl; auto).
  rewrite (H e (or_introl eq_refl)). destruct (e_start e =? p); reflexivity.
Qed.

Lemma render_deletions es :
  (forall e, In e es -> e_content e = []) ->
  forall t p, Subsequence (render es p t) t.
Proof.
  intros H. induction t as [|c t IH]; intros p; simpl;
    rewrite (inserted_deletions es p H); simpl.
  - constructor.
  - destruct (replaced es p); simpl; constructor; apply IH.
Qed.

Lemma render_all_replaced es :
  (forall e, In e es -> e_content e = []) ->
  forall t p,
    (forall q, p <= q < p + List.length t -> replaced es q = true) ->
    render es p t = [].
Proof.
  intros H. induction t as [|c t IH]; intros p Hq; simpl;
    rewrite (inserted_deletions es p H); simpl; [reflexivity|].
  rewrite Hq by (simpl; lia). simpl.
  apply IH. intros q Hq'. apply Hq. simpl. lia.
Qed.

Lemma Subsequence_length s t :
  Subsequence s t -> List.length s <= List.length t.
Proof. induction 1; simpl; lia. Qed.

Lemma walk_deletion_contents src root code' :
  (forall n, In n (visited root) -> insertsText n = false) ->
  walk src root (newMagicString src) = Ok code' ->
  forall e, In e (edits code') -> e_content e = [].
Proof.
  intros Hno Hw e Hin. destruct (walk_edits _ _ _ _ Hw) as [_ He].
  simpl in He. rewrite He in Hin.
  apply in_flat_map in Hin as [n [Hn Hq]].
  exact (queued_deletion src n e (Hno n Hn) Hq).
Qed.

(** X7.  A walk only appends to the queue: it leaves the original text and
    the edits queued before as they are, and what it appends does not depend
    on the buffer it starts from: on any other buffer the same walk returns
    that buffer with the same edits appended, in the order of the visits. *)
Theorem walk_appends_same_edits src root code code' :
  walk src root code = Ok code' ->
  original code' = original code
  /\ edits code' = edits code ++ flat_map (queued src) (visited root)
  /\ forall other,
       walk src root other
       = Ok (mkMagicString (original other)
               (edits other ++ flat_map (queued src) (visited root))).
Proof.
  intros Hw. destruct (walk_edits _ _ _ _ Hw) as [Ho He].
  split; [exact Ho|]. split; [exact He|].
  intros other.
  destruct (walk_total src root other (walk_ok_wellTyped _ _ _ _ Hw))
    as [other' Hw'].
  rewrite Hw'. destruct (walk_edits _ _ _ _ Hw') as [Ho' He'].
  destruct other' as [o es]. simpl in Ho', He'. subst. reflexivity.
Qed.

Lemma walk_appends_same_edits_witness :
  walk src_function_foo ast_function_foo (newMagicString src_function_foo)
  = Ok (mkMagicString src_function_foo
          [mkEdit 12 15 []; mkEdit 26 34 []; mkEdit 17 25 []])
  /\ walk src_function_foo ast_function_foo
       (mkMagicString src_function_foo [mkEdit 0 0 (txt "x")])
     = Ok (mkMagicString src_function_foo
             ([mkEdit 0 0 (txt "x")]
              ++ flat_map (queued src_function_foo)
                   (visited ast_function_foo))).
Proof.
  assert (Hw : walk src_function_foo ast_function_foo
                    (newMagicString src_function_foo)
               = Ok (mkMagicString src_function_foo
                       [mkEdit 12 15 []; mkEdit 26 34 []; mkEdit 17 25 []]))
    by (vm_compute; reflexivity).
  split; [exact Hw|].
  destruct (walk_appends_same_edits _ _ _ _ Hw) as [_ [_ H]].
  exact (H (mkMagicString src_function_foo [mkEdit 0 0 (txt "x")])).
Defined.

(** X9.  A walk that visits no specifier list and no type assertion only
    deletes: every queued replacement is empty, and the rendered text is the
    input with some characters left out, none added and none moved, so it
    is not longer than the input. *)
Theorem walk_only_deletes src root code' :
  (forall n, In n (visited root) -> insertsText n = false) ->
  walk src root (newMagicString src) = Ok code' ->
  (forall e, In e (edits code') -> e_content e = [])
  /\ Subsequence (toString code') src
  /\ List.length (toString code') <= List.length src.
Proof.
  intros Hno Hw. destruct (walk_edits _ _ _ _ Hw) as [Ho _].
  simpl in Ho.
  pose proof (walk_deletion_contents src root code' Hno Hw) as Hdel.
  assert (Hsub : Subsequence (toString code') src).
  { unfold toString. rewrite Ho. apply render_deletions, Hdel. }
  split; [exact Hdel|]. split; [exact Hsub|].
  apply Subsequence_length, Hsub.
Qed.

Lemma walk_only_deletes_witness :
  forallb (fun n => negb (insertsText n)) (visited ast_function_foo) = true
  /\ walk src_function_foo ast_function_foo (newMagicString src_function_foo)
     = Ok (mkMagicString src_function_foo
             [mkEdit 12 15 []; mkEdit 26 34 []; mkEdit 17 25 []])
  /\ Subsequence
       (toString (mkMagicString src_function_foo
                    [mkEdit 12 15 []; mkEdit 26 34 []; mkEdit 17 25 []]))
       src_function_foo.
Proof.
  assert (Hall : forallb (fun n => negb (insertsText n))
                   (visited ast_function_foo) = true)
    by (vm_compute; reflexivity).
  assert (Hw : walk src_function_foo ast_function_foo
                    (newMagicString src_function_foo)
               = Ok (mkMagicString src_function_foo
                       [mkEdit 12 15 []; mkEdit 26 34 []; mkEdit 17 25 []]))
    by (vm_compute; reflexivity).
  split; [exact Hall|]. split; [exact Hw|].
  apply (walk_only_deletes src_function_foo ast_function_foo); [|exact Hw].
  intros n Hn. rewrite forallb_forall in Hall.
  apply negb_true_iff, Hall, Hn.
Defined.

(** X10.  When the walk visits no specifier list and no type assertion and
    every position of the input lies in the range of a visited declaration
    that is deleted whole, the rendered text is empty: a file of type-only
    declarations erases to nothing. *)
Theorem walk_erases_covered_text src root code' :
  (forall n, In n (visited root) -> insertsText n = false) ->
  (forall p, p < List.length src ->
             exists n, In n (visited root) /\ deletesWhole n = true
                       /\ pos n <= p < end_ n) ->
  walk src root (newMagicString src) = Ok code' ->
  toString code' = [].
Proof.
  intros Hno Hcover Hw.
  pose proof (walk_deletion_contents src root code' Hno Hw) as Hdel.
  destruct (walk_edits _ _ _ _ Hw) as [Ho _]. simpl in Ho.
  unfold toString. rewrite Ho. apply render_all_replaced; [exact Hdel|].
  intros q Hq. destruct (Hcover q ltac:(lia)) as [n [Hn [Hd Hr]]].
  apply (replaced_true _ (mkEdit (pos n) (end_ n) [])); [|exact Hr].
  apply (walk_queued src root _ code' n _ Hw Hn).
  rewrite queued_deletesWhole by exact Hd. simpl; auto.
Qed.

Lemma walk_erases_covered_text_witness :
  forallb (fun n => negb (insertsText n)) (visited ast_jsx_in_namespace)
  = true
  /\ walk src_jsx_in_namespace ast_jsx_in_namespace
       (newMagicString src_jsx_in_namespace)
     = Ok (mkMagicString src_jsx_in_namespace [mkEdit 0 30 []])
  /\ toString (mkMagicString src_jsx_in_namespace [mkEdit 0 30 []]) = [].
Proof.
  assert (Hall : forallb (fun n => negb (insertsText n))
                   (visited ast_jsx_in_namespace) = true)
    by (vm_compute; reflexivity).
  assert (Hw : walk src_jsx_in_namespace ast_jsx_in_namespace
                    (newMagicString src_jsx_in_namespace)
               = Ok (mkMagicString src_jsx_in_namespace [mkEdit 0 30 []]))
    by (vm_compute; reflexivity).
  split; [exact Hall|]. split; [exact Hw|].
  apply (walk_erases_covered_text src_jsx_in_namespace ast_jsx_in_namespace);
    [| |exact Hw].
  - intros n Hn. rewrite forallb_forall in Hall.
    apply negb_true_iff, Hall, Hn.
  - intros p Hp.
    exists (nth 0 (forEachChild ast_jsx_in_namespace) ast_jsx_in_namespace).
    split; [cbv; right; left; reflexivity|].
    split; [reflexivity|]. simpl in Hp |- *. lia.
Defined.

(** ** Rendering up to white space *)

Lemma ink_app a b : ink (a ++ b) = ink a ++ ink b.
Proof. apply filter_app. Qed.

Lemma substring_from (a b : nat) (t : text) :
  a <= b -> substring a b t = firstn (b - a) (skipn a t).
Proof.
  intros H. unfold substring. rewrite Nat.max_r, Nat.min_l by lia.
  reflexivity.
Qed.

Lemma sameInk_empty src e :
  sameInk src e -> e_end e <= e_start e -> ink (e_content e) = [].
Proof.
  intros [[H1 _] H2] H. rewrite H2, substring_from by exact H1.
  replace (e_end e - e_start e) with 0 by lia. reflexivity.
Qed.

Lemma inserted_no_ink es p :
  (forall e, In e es -> e_start e = p -> ink (e_content e) = []) ->
  ink (inserted es p) = [].
Proof.
  unfold inserted. induction es as [|e es IH]; intros H; [reflexivity|].
  simpl. rewrite ink_app, IH by (intros e' He'; apply H; simpl; auto).
  rewrite app_nil_r.
  destruct (Nat.eqb_spec (e_start e) p) as [E|_]; [|reflexivity].
  apply H; simpl; auto.
Qed.

Lemma inserted_one_ink src es : forall e p,
  Forall (sameInk src) es -> ForallOrdPairs apart es ->
  In e es -> e_start e = p -> p < e_end e ->
  ink (inserted es p) = ink (e_content e).
Proof.
  induction es as [|x es IH]; intros e p Hgood Hapart Hin Hs He;
    [destruct Hin|].
  inversion Hgood as [|? ? Hx Hes]; subst.
  inversion Hapart as [|? ? Hxs Hpairs]; subst.
  unfold inserted. simpl. fold (inserted es (e_start e)). rewrite ink_app.
  destruct Hin as [->|Hin].
  - rewrite Nat.eqb_refl.
    rewrite inserted_no_ink; [apply app_nil_r|].
    intros e' He' Hs'. apply (sameInk_empty src).
    + rewrite Forall_forall in Hes. apply Hes, He'.
    + rewrite Forall_forall in Hxs. destruct (Hxs e' He') as [H|H]; lia.
  - rewrite (IH e (e_start e) Hes Hpairs Hin eq_refl He).
    rewrite Forall_forall in Hxs.
    destruct (Nat.eqb_spec (e_start x) (e_start e)) as [E|_]; [|reflexivity].
    rewrite (sameInk_empty src x Hx); [reflexivity|].
    destruct (Hxs e Hin) as [H|H]; lia.
Qed.

Lemma skipn_uncons (p : nat) (l : text) c t :
  skipn p l = c :: t -> skipn (S p) l = t /\ p < List.length l.
Proof.
  revert l. induction p as [|p IH]; intros l H.
  - simpl in H. subst l. simpl. split; [reflexivity | lia].
  - destruct l as [|x l]; [discriminate H|].
    simpl in H. destruct (IH l H) as [E Hl]. split; [exact E | simpl; lia].
Qed.

(** Edits that lie apart and change white space only render the text up to
    white space. *)
Lemma render_up_to_space src es :
  Forall (sameInk src) es -> ForallOrdPairs apart es ->
  forall t p,
    skipn p src = t -> p <= List.length src ->
    ((forall e, In e es -> e_start e < p -> e_end e <= p) ->
     ink (render es p t) = ink t)
    /\ (forall e, In e es -> e_start e < p < e_end e ->
                  ink (render es p t) = ink (skipn (e_end e - p) t)).
Proof.
  intros Hgood Hapart.
  assert (Hg : forall e, In e es -> sameInk src e)
    by (apply Forall_forall; exact Hgood).
  assert (Hpair : forall a b, In a es -> In b es ->
                              a = b \/ apart a b \/ apart b a)
    by (intros a b Ha Hb; exact (ForallOrdPairs_In Hapart a b Ha Hb)).
  induction t as [|c t IH]; intros p Hp Hle.
  - assert (Hlen : p = List.length src).
    { pose proof (length_skipn p src) as L. rewrite Hp in L. simpl in L. lia. }
    split.
    + intros _. simpl. apply inserted_no_ink. intros e He Hs.
      apply (sameInk_empty src); [apply Hg, He|].
      destruct (Hg e He) as [[_ H] _]. lia.
    + intros e He [_ H]. destruct (Hg e He) as [[_ H'] _]. lia.
  - destruct (skipn_uncons p src c t Hp) as [Hp' Hlt].
    destruct (IH (S p) Hp' ltac:(lia)) as [IH1 IH2]. clear IH.
    assert (Hnext : forall e, In e es -> e_start e <= p < e_end e ->
              (forall e', In e' es -> e_start e' < p -> e_end e' <= p) ->
              ink (render es (S p) t) = ink (skipn (e_end e - S p) t)).
    { intros e He [Hs Hcov] Hfree.
      destruct (Nat.eq_dec (e_end e) (S p)) as [E|N].
      - replace (e_end e - S p) with 0 by lia. simpl. apply IH1.
        intros e' He' Hs'.
        destruct (Hpair e' e He' He) as [->|[[H|H]|[H|H]]]; lia.
      - apply IH2; [exact He | lia]. }
    split.
    + intros Hfree. simpl. rewrite !ink_app.
      destruct (existsb (fun e => (e_start e =? p) && (p <? e_end e)) es)
        eqn:Hex.
      * apply existsb_exists in Hex as [e [He Hb]].
        apply andb_true_iff in Hb as [Hs Hcov].
        apply Nat.eqb_eq in Hs. apply Nat.ltb_lt in Hcov.
        rewrite (inserted_one_ink src es e p Hgood Hapart He Hs Hcov).
        rewrite (replaced_true es e p He) by lia. simpl.
        rewrite (Hnext e He ltac:(lia) Hfree).
        destruct (Hg e He) as [[H1 H2] Hink]. rewrite Hink.
        rewrite substring_from by exact H1. rewrite Hs, Hp.
        replace (e_end e - p) with (S (e_end e - S p)) by lia.
        simpl firstn. rewrite <- ink_app. simpl app.
        rewrite firstn_skipn. reflexivity.
      * assert (Hnone : forall e, In e es -> e_start e = p -> e_end e <= p).
        { intros e He Hs.
          destruct (Nat.ltb_spec p (e_end e)) as [Hlt'|Hge]; [|exact Hge].
          exfalso. apply not_true_iff_false in Hex. apply Hex.
          apply existsb_exists. exists e. split; [exact He|].
          apply andb_true_iff. split;
            [apply Nat.eqb_eq, Hs | apply Nat.ltb_lt, Hlt']. }
        rewrite inserted_no_ink.
        2:{ intros e He Hs. apply (sameInk_empty src); [apply Hg, He|].
            rewrite Hs. apply Hnone; assumption. }
        rewrite replaced_false.
        2:{ intros e He.
            destruct (Nat.lt_trichotomy (e_start e) p) as [H|[H|H]].
            - left. apply Hfree; assumption.
            - left. apply Hnone; assumption.
            - right. exact H. }
        rewrite IH1;
          [unfold ink; simpl; destruct (otherThanSpace c); reflexivity|].
        intros e He Hs.
        destruct (Nat.eq_dec (e_start e) p) as [Ep|Np].
        -- pose proof (Hnone e He Ep). lia.
        -- assert (e_end e <= p) by (apply Hfree; [exact He | lia]). lia.
    + intros e He [Hs Hcov]. simpl. rewrite !ink_app.
      rewrite inserted_no_ink.
      2:{ intros e' He' Hs'. exfalso.
          destruct (Hg e' He') as [[H1 _] _].
          destruct (Hpair e' e He' He) as [->|[[H|H]|[H|H]]]; lia. }
      rewrite (replaced_true es e p He) by lia. simpl.
      replace (e_end e - p) with (S (e_end e - S p)) by lia. simpl.
      destruct (Nat.eq_dec (e_end e) (S p)) as [E|N].
      * replace (e_end e - S p) with 0 by lia. simpl. apply IH1.
        intros e' He' Hs'.
        destruct (Hpair e' e He' He) as [->|[[H|H]|[H|H]]]; lia.
      * apply IH2; [exact He | lia].
Qed.

Lemma toString_up_to_space code :
  Forall (sameInk (original code)) (edits code) ->
  ForallOrdPairs apart (edits code) ->
  ink (toString code) = ink (original code).
Proof.
  intros Hgood Hapart. unfold toString.
  destruct (render_up_to_space (original code) (edits code) Hgood Hapart
              (original code) 0 eq_refl ltac:(lia)) as [H _].
  apply H. intros e _ Hs. lia.
Qed.

Lemma ink_join sep : forall l,
  ink (join sep l) = join (ink sep) (map ink l).
Proof.
  induction l as [|x l IH]; [reflexivity|].
  rewrite join_cons. simpl map. rewrite join_cons.
  destruct l as [|y l]; [reflexivity|].
  rewrite !ink_app, IH. reflexivity.
Qed.

Lemma filter_all {A : Type} (f : A -> bool) (l : list A) :
  forallb f l = true -> filter f l = l.
Proof.
  induction l as [|x l IH]; simpl; [reflexivity|].
  intros H. apply andb_true_iff in H as [Hx Hl].
  rewrite Hx, IH by exact Hl. reflexivity.
Qed.

Lemma text_eqb_eq a b : text_eqb a b = true -> a = b.
Proof.
  unfold text_eqb. destruct (list_eq_dec ascii_dec a b); [auto|discriminate].
Qed.

(** A plain list queues one edit, for its range, that changes white space
    only. *)
Lemma plainList_queued src n :
  plainList src n = true ->
  consumed n = true /\ wellTyped n = true
  /\ exists e, queued src n = [e] /\ e_start e = pos n /\ e_end e = end_ n
               /\ sameInk src e.
Proof.
  unfold plainList. intros H. apply andb_true_iff in H as [Hk H].
  destruct (elements n) as [es|] eqn:Hes; [|discriminate].
  apply andb_true_iff in H as [H Hink]. apply andb_true_iff in H as [H Hlen].
  apply andb_true_iff in H as [Hall Hpos].
  apply Nat.leb_le in Hpos, Hlen. apply text_eqb_eq in Hink.
  assert (Hkept : forall sep,
            keptSpecifiers src sep es
            = txt "{" ++ join sep (map (getText src) es) ++ txt "}").
  { intros sep. unfold keptSpecifiers. rewrite (filter_all _ es Hall).
    reflexivity. }
  assert (Hsame : forall sep, ink sep = txt "," ->
            sameInk src (mkEdit (pos n) (end_ n) (keptSpecifiers src sep es))).
  { intros sep Hsep. split; [simpl; lia|].
    cbn [e_start e_end e_content]. rewrite Hink, Hkept.
    rewrite !ink_app, !ink_join, Hsep. reflexivity. }
  apply orb_true_iff in Hk as [Hk|Hk].
  - split; [decide_kinds Hk; rewrite ?orb_true_r; reflexivity|].
    split; [decide_kinds Hk; rewrite Hes; reflexivity|].
    eexists. split; [|split; [|split]].
    + unfold queued. rewrite visit_NamedImports by exact Hk. rewrite Hes.
      reflexivity.
    + reflexivity.
    + reflexivity.
    + apply Hsame. reflexivity.
  - split; [decide_kinds Hk; rewrite ?orb_true_r; reflexivity|].
    split; [decide_kinds Hk; rewrite Hes; reflexivity|].
    eexists. split; [|split; [|split]].
    + unfold queued. rewrite visit_NamedExports by exact Hk. rewrite Hes.
      reflexivity.
    + reflexivity.
    + reflexivity.
    + apply Hsame. reflexivity.
Qed.

Lemma unrecognized_queued src n :
  recognized n = false -> wellTyped n = true ->
  consumed n = false /\ queued src n = [].
Proof.
  intros Hr Hwt. split; [apply recognized_not_consumed, Hr|].
  unfold queued. rewrite (visit_unrecognized src n _ Hr Hwt). reflexivity.
Qed.

(** The edits of unrecognized nodes and plain lists whose ranges lie apart
    lie apart and change white space only. *)
Lemma plain_edits src : forall l,
  (forall n, In n l ->
             (recognized n = false /\ wellTyped n = true)
             \/ plainList src n = true) ->
  ForallOrdPairs rangesApart (filter consumed l) ->
  Forall (sameInk src) (flat_map (queued src) l)
  /\ ForallOrdPairs apart (flat_map (queued src) l)
  /\ forall e, In e (flat_map (queued src) l) ->
               exists n, In n (filter consumed l)
                         /\ e_start e = pos n /\ e_end e = end_ n.
Proof.
  induction l as [|a l IH]; intros Hl Hfar.
  - simpl. split; [constructor|]. split; [constructor|]. intros e [].
  - assert (Hl' : forall n, In n l ->
                    (recognized n = false /\ wellTyped n = true)
                    \/ plainList src n = true)
      by (intros n Hn; apply Hl; simpl; auto).
    destruct (Hl a (or_introl eq_refl)) as [[Hr Hwt]|Hp].
    + destruct (unrecognized_queued src a Hr Hwt) as [Hc Hq].
      simpl in Hfar |- *. rewrite Hc in *. rewrite Hq. simpl.
      apply IH; assumption.
    + destruct (plainList_queued src a Hp)
        as [Hc [_ [ea [Hq [Hs [He Hsame]]]]]].
      simpl in Hfar |- *. rewrite Hc in *. rewrite Hq. simpl.
      inversion Hfar as [|? ? Ha Hrest]; subst.
      destruct (IH Hl' Hrest) as [IHgood [IHapart IHfrom]].
      split; [constructor; assumption|]. split.
      * constructor; [|exact IHapart].
        apply Forall_forall. intros e Hin.
        destruct (IHfrom e Hin) as [m [Hm [Hms Hme]]].
        rewrite Forall_forall in Ha. specialize (Ha m Hm).
        unfold apart, rangesApart in *. rewrite Hs, He, Hms, Hme. exact Ha.
      * intros e [<-|Hin]; [exists a; auto|].
        destruct (IHfrom e Hin) as [m [Hm Hr]]. exists m. auto.
Qed.

(** C9 (amended).  On an input in whose tree the only nodes the classifier
    recognizes are named-import and named-export lists without type-only
    specifier whose text is, white space aside, the braces, the specifiers
    and the commas between them (no comment inside, which the
    re-serialisation would lose), the lists lying apart and every function
    node carrying its parameter list: the walk raises no error, every other
    node is left untouched, and the rendered text is the input up to white
    space, and the input byte for byte when there is no such list.  The
    transform then settles as the formatter does on that text. *)
Theorem transform_leaves_unrecognized_input
  (createSourceFile : text -> Node) (format : text -> option text)
  (tsCode : text) :
  (forall n, In n (visited (createSourceFile tsCode)) ->
             (recognized n = false /\ wellTyped n = true)
             \/ plainList tsCode n = true) ->
  ForallOrdPairs rangesApart
    (filter consumed (visited (createSourceFile tsCode))) ->
  exists code',
    walk tsCode (createSourceFile tsCode) (newMagicString tsCode) = Ok code'
    /\ (forall n, In n (visited (createSourceFile tsCode)) ->
                  recognized n = false -> queued tsCode n = [])
    /\ ink (toString code') = ink tsCode
    /\ ((forall n, In n (visited (createSourceFile tsCode)) ->
                   recognized n = false) ->
        toString code' = tsCode)
    /\ transformToJs createSourceFile format tsCode
       = formatted format (toString code').
Proof.
  intros Hl Hfar. set (root := createSourceFile tsCode) in *.
  assert (Hwt : forall n, In n (visited root) -> wellTyped n = true).
  { intros n Hn. destruct (Hl n Hn) as [[_ H]|H]; [exact H|].
    apply (plainList_queued tsCode n H). }
  destruct (walk_total tsCode root (newMagicString tsCode) Hwt)
    as [code' Hw].
  destruct (walk_edits _ _ _ _ Hw) as [Ho He]. simpl in Ho, He.
  destruct (plain_edits tsCode (visited root) Hl Hfar)
    as [Hgood [Hapart _]].
  exists code'. split; [exact Hw|]. split; [|split; [|split]].
  - intros n Hn Hr. apply (unrecognized_queued tsCode n Hr (Hwt n Hn)).
  - transitivity (ink (original code')); [|rewrite Ho; reflexivity].
    apply toString_up_to_space; rewrite ?Ho, He; assumption.
  - intros Hnone.
    assert (Hw' : walk tsCode root (newMagicString tsCode)
                  = Ok (newMagicString tsCode)).
    { apply walk_unrecognized. intros n Hn. split; [apply Hnone | apply Hwt];
        exact Hn. }
    rewrite Hw in Hw'. injection Hw' as ->. apply render_nil.
  - unfold transformToJs. fold root. rewrite Hw. reflexivity.
Qed.

Lemma transform_leaves_unrecognized_input_witness :
  forallb (fun n => negb (recognized n) && wellTyped n
                    || plainList src_import_bar n)
    (visited ast_import_bar) = true
  /\ filter consumed (visited ast_import_bar) = [imports_bar]
  /\ exists code',
       walk src_import_bar ast_import_bar (newMagicString src_import_bar)
       = Ok code'
       /\ (forall n, In n (visited ast_import_bar) ->
                     recognized n = false -> queued src_import_bar n = [])
       /\ ink (toString code') = ink src_import_bar
       /\ ((forall n, In n (visited ast_import_bar) -> recognized n = false) ->
           toString code' = src_import_bar)
       /\ transformToJs (fun _ => ast_import_bar) (fun t => Some t)
            src_import_bar
          = formatted (fun t => Some t) (toString code').
Proof.
  assert (Hall : forallb (fun n => negb (recognized n) && wellTyped n
                                   || plainList src_import_bar n)
                   (visited ast_import_bar) = true)
    by (vm_compute; reflexivity).
  assert (Hfilter : filter consumed (visited ast_import_bar) = [imports_bar])
    by reflexivity.
  split; [exact Hall|]. split; [exact Hfilter|].
  apply (transform_leaves_unrecognized_input
           (fun _ => ast_import_bar) (fun t => Some t) src_import_bar).
  - intros n Hn. rewrite forallb_forall in Hall. specialize (Hall n Hn).
    apply orb_true_iff in Hall as [H|H]; [left|right; exact H].
    apply andb_true_iff in H as [Hr Hwt].
    split; [apply negb_true_iff, Hr | exact Hwt].
  - rewrite Hfilter. repeat constructor.
Defined.
